(** * Annealed Langevin sampling (src/score/annealed_langevin.py)
    and the attention layer constants (src/ddpm/models/layers.py).

    Scalars of the tensor engine are modelled as rationals [Q]; the
    square root used to scale the noise is left as a parameter [qsqrt]
    of the sampler.  A tensor is a shape together with its flattened
    data.  The random source [randn_like] is a function [noise k i]
    giving element [i] of the [k]-th draw. *)

From Stdlib Require Import List Arith Lia QArith Qminmax Rdefinitions Raxioms Rpower.
From Stdlib Require Import Rbase Rfunctions Rtrigo_def Rtrigo1 Exp_prop Lra Qround.
Import ListNotations.

Open Scope Q_scope.

(** ** Tensors *)

Record Tensor := mkTensor { shape : list nat ; data : list Q }.

(** [torch.clamp(x, lo, hi)] = [min(max(x, lo), hi)] elementwise. *)
Definition clamp (lo hi : Q) (t : Tensor) : Tensor :=
  mkTensor (shape t) (map (fun v => Qmin (Qmax v lo) hi) (data t)).

(** [c * t] for a scalar [c] on the left. *)
Definition scale_l (c : Q) (t : Tensor) : Tensor :=
  mkTensor (shape t) (map (fun v => c * v) (data t)).

(** [t * c] for a scalar (0-d tensor) [c] on the right. *)
Definition scale_r (t : Tensor) (c : Q) : Tensor :=
  mkTensor (shape t) (map (fun v => v * c) (data t)).

Fixpoint list_nat_eqb (a b : list nat) : bool :=
  match a, b with
  | [], [] => true
  | x :: a', y :: b' => Nat.eqb x y && list_nat_eqb a' b'
  | _, _ => false
  end.

(** Elementwise [t + u] of two tensors.  Tensors of equal shape are added
    element by element; a shape mismatch is a runtime error of the tensor
    engine (broadcasting between distinct shapes is not modelled). *)
Definition add (t u : Tensor) : option Tensor :=
  if list_nat_eqb (shape t) (shape u)
  then Some (mkTensor (shape t) (map (fun p => fst p + snd p) (combine (data t) (data u))))
  else None.

(** [torch.randn_like(x)] as the [k]-th draw of the random source. *)
Definition randn_like (noise : nat -> nat -> Q) (k : nat) (x : Tensor) : Tensor :=
  mkTensor (shape x) (map (noise k) (seq 0 (length (data x)))).

(** [x.size(dim=0)] *)
Definition size0 (x : Tensor) : nat := hd 0%nat (shape x).

(** ** Sampler state and the trace of what the loop body does *)

Inductive Event :=
| ELevel (label : nat) (sigma step : Q)      (* entering a noise level *)
| ESnapshot (snap : Tensor)                 (* samples.append(...) *)
| ENoise (k : nat) (scale : Q) (z : Tensor)  (* z = randn_like(x) * scale *)
| EScore (xin sig out : Tensor)             (* score = score_nn(x, used_sigmas) *)
| EUpdate (xold xnew : Tensor).             (* x = x + step_size * score + z *)

Record St := mkSt {
  st_x : Tensor;             (* the local variable [x] *)
  st_samples : list Tensor;  (* the list [samples] *)
  st_draws : nat;            (* number of draws taken from the random source *)
  st_log : list Event
}.

Definition obind {A B} (m : option A) (f : A -> option B) : option B :=
  match m with Some a => f a | None => None end.
Notation "x <- m ;; k" := (obind m (fun x => k))
  (at level 61, m at next level, right associativity).

(** One Langevin update [x + step_size * score + z]. *)
Definition langevin_update (x : Tensor) (step : Q) (score z : Tensor) : option Tensor :=
  x1 <- add x (scale_l step score) ;;
  add x1 z.

Section Sampler.

Variable score_nn : Tensor -> Tensor -> Tensor.
Variable noise : nat -> nat -> Q.
Variable qsqrt : Q -> Q.

(** [step_size = eps * (sigma / sigmas[-1]) ** 2] *)
Definition step_size (eps : Q) (sigmas : list Q) (sigma : Q) : Q :=
  eps * ((sigma / last sigmas 0) ^ 2).

(** [used_sigmas = sigmas[labels].view(-1, 1, 1, 1)] with
    [labels = ones(x.size(0)) * label]. *)
Definition used_sigmas_of (sigmas : list Q) (label : nat) (x : Tensor) : Tensor :=
  let labels := repeat label (size0 x) in
  mkTensor [size0 x; 1%nat; 1%nat; 1%nat] (map (fun l => nth l sigmas 0) labels).

(** Body of [for t in range(T)]. *)
Definition inner_step (used : Tensor) (step : Q) (s : St) : option St :=
  let x := st_x s in
  let snap := clamp (-1) 1 x in
  let k := st_draws s in
  let c := qsqrt (2 * step) in
  let z := scale_r (randn_like noise k x) c in
  let score := score_nn x used in
  x' <- langevin_update x step score z ;;
  Some (mkSt x' (st_samples s ++ [snap]) (S k)
          (st_log s ++ [ESnapshot snap; ENoise k c z; EScore x used score; EUpdate x x'])).

Fixpoint inner_loop (T : nat) (used : Tensor) (step : Q) (s : St) : option St :=
  match T with
  | O => Some s
  | S T' => s' <- inner_step used step s ;; inner_loop T' used step s'
  end.

(** Body of [for label, sigma in enumerate(sigmas)]. *)
Fixpoint outer_loop (sigmas : list Q) (eps : Q) (T : nat)
    (label : nat) (rest : list Q) (s : St) : option St :=
  match rest with
  | [] => Some s
  | sigma :: rest' =>
      let used := used_sigmas_of sigmas label (st_x s) in
      let step := step_size eps sigmas sigma in
      let s1 := mkSt (st_x s) (st_samples s) (st_draws s)
                     (st_log s ++ [ELevel label sigma step]) in
      s2 <- inner_loop T used step s1 ;;
      outer_loop sigmas eps T (S label) rest' s2
  end.

Definition run (x : Tensor) (sigmas : list Q) (eps : Q) (T : nat) : option St :=
  outer_loop sigmas eps T 0 sigmas (mkSt x [] 0 []).

(** [sample_anneal_langevin(x, score_nn, sigmas, eps, T)] *)
Definition sample_anneal_langevin (x : Tensor) (sigmas : list Q) (eps : Q) (T : nat)
  : option (list Tensor) :=
  s <- run x sigmas eps T ;; Some (st_samples s).

(** The [j]-th Langevin update of a run, counted over all levels: it runs at
    level [label = j / T] with [step_size = eps * (sigmas[label] / sigmas[-1]) ** 2],
    calls [score_nn(x, used_sigmas)] on the current [x], and draws the [j]-th
    noise tensor, scaled by [sqrt(2 * step_size)]. *)
Definition traj_step (sigmas : list Q) (eps : Q) (T j : nat) (x : Tensor) : option Tensor :=
  let label := (j / T)%nat in
  let step := step_size eps sigmas (nth label sigmas 0) in
  langevin_update x step (score_nn x (used_sigmas_of sigmas label x))
    (scale_r (randn_like noise j x) (qsqrt (2 * step))).

(** [Traj sigmas eps T j x xs y]: starting from [x] at update number [j],
    the values held by [x] before each update are [xs], in order, and the
    value after the last of them is [y]. *)
Inductive Traj (sigmas : list Q) (eps : Q) (T : nat) : nat -> Tensor -> list Tensor -> Tensor -> Prop :=
| Traj_nil : forall j x, Traj sigmas eps T j x [] x
| Traj_cons : forall j x x' xs y,
    traj_step sigmas eps T j x = Some x' ->
    Traj sigmas eps T (S j) x' xs y -> Traj sigmas eps T j x (x :: xs) y.

End Sampler.

(** ** The sampler as the specification describes it

    For each noise level index [i] from [0] to [length sigmas - 1], with
    [sigma = sigmas[i]]: compute [step_size = eps * (sigma / sigmas[last])^2],
    then repeat [T] times: record a clamped snapshot, draw noise scaled by
    [sqrt(2 * step_size)], evaluate the score at [x] and [sigma] broadcast to
    one value per batch element, and update [x]. *)
Section SpecSampler.

Variable score_fn : Tensor -> Tensor -> Tensor.
Variable noise : nat -> nat -> Q.
Variable qsqrt : Q -> Q.

Definition spec_broadcast (sigma : Q) (x : Tensor) : Tensor :=
  mkTensor [size0 x; 1%nat; 1%nat; 1%nat] (repeat sigma (size0 x)).

Definition spec_iteration (sigma step : Q) (s : St) : option St :=
  let x := st_x s in
  (* 1. snapshot *)
  let snap := clamp (-1) 1 x in
  (* 2. fresh noise *)
  let k := st_draws s in
  let z := scale_r (randn_like noise k x) (qsqrt (2 * step)) in
  (* 3. score *)
  let sig := spec_broadcast sigma x in
  let score := score_fn x sig in
  (* 4. update *)
  x' <- add (st_x s) (scale_l step score) ;;
  x'' <- add x' z ;;
  Some (mkSt x'' (st_samples s ++ [snap]) (S k)
          (st_log s ++ [ESnapshot snap; ENoise k (qsqrt (2 * step)) z;
                        EScore x sig score; EUpdate x x''])).

Fixpoint repeat_opt (n : nat) (f : St -> option St) (s : St) : option St :=
  match n with
  | O => Some s
  | S n' => s' <- f s ;; repeat_opt n' f s'
  end.

Definition spec_level (sigmas : list Q) (eps : Q) (T : nat) (i : nat) (s : St) : option St :=
  let sigma := nth i sigmas 0 in
  let step := eps * ((sigma / nth (length sigmas - 1) sigmas 0) ^ 2) in
  repeat_opt T (spec_iteration sigma step)
    (mkSt (st_x s) (st_samples s) (st_draws s) (st_log s ++ [ELevel i sigma step])).

Fixpoint fold_opt (f : nat -> St -> option St) (is : list nat) (s : St) : option St :=
  match is with
  | [] => Some s
  | i :: is' => s' <- f i s ;; fold_opt f is' s'
  end.

Definition spec_run (x : Tensor) (sigmas : list Q) (eps : Q) (T : nat) : option St :=
  fold_opt (spec_level sigmas eps T) (seq 0 (length sigmas)) (mkSt x [] 0 []).

(** What each event of the trace is, forgetting the sample tensors. *)
Inductive Tag :=
| TLevel (label : nat) (sigma step : Q)
| TSnapshot
| TNoise (scale : Q)
| TScore (sig : Tensor)
| TUpdate.

Definition tag (e : Event) : Tag :=
  match e with
  | ELevel i sigma step => TLevel i sigma step
  | ESnapshot _ => TSnapshot
  | ENoise _ c _ => TNoise c
  | EScore _ sig _ => TScore sig
  | EUpdate _ _ => TUpdate
  end.

(** The trace the specification prescribes for a batch of [b] elements:
    every level [i] once, in index order, each followed by [T] iterations of
    snapshot, noise scaled by [sqrt(2 * step_size)], score at [sigma]
    broadcast to [b] values, update. *)
Definition iteration_tags (b : nat) (sigma step : Q) : list Tag :=
  [TSnapshot; TNoise (qsqrt (2 * step));
   TScore (mkTensor [b; 1%nat; 1%nat; 1%nat] (repeat sigma b)); TUpdate].

Definition level_tags (sigmas : list Q) (eps : Q) (T b : nat) (i : nat) : list Tag :=
  let sigma := nth i sigmas 0 in
  let step := eps * ((sigma / nth (length sigmas - 1) sigmas 0) ^ 2) in
  TLevel i sigma step :: concat (repeat (iteration_tags b sigma step) T).

Definition expected_tags (sigmas : list Q) (eps : Q) (T b : nat) : list Tag :=
  flat_map (level_tags sigmas eps T b) (seq 0 (length sigmas)).

End SpecSampler.

(** ** The sampler over a store of tensors

    Python names denote tensor objects.  Here every tensor object lives at
    a location of a store; each tensor operation of the loop body
    ([torch.clamp], [randn_like], [*], [+], the score call) allocates a fresh
    object, and the assignment [x = x + step_size * score + z] rebinds the
    local name [x] to the location of the result. *)
Module Store.

Definition Heap := nat -> option Tensor.

Definition heap_upd (h : Heap) (l : nat) (t : Tensor) : Heap :=
  fun l' => if Nat.eqb l' l then Some t else h l'.

Record HSt := mkHSt {
  h_heap : Heap;
  h_next : nat;            (* next fresh location *)
  h_x : nat;               (* object bound to the local name [x] *)
  h_samples : list nat;    (* objects in the list [samples] *)
  h_draws : nat
}.

(** A state and error monad over [HSt]. *)
Definition HM (A : Type) := HSt -> option (A * HSt).

Definition ret {A} (a : A) : HM A := fun s => Some (a, s).
Definition bind {A B} (m : HM A) (f : A -> HM B) : HM B :=
  fun s => match m s with Some (a, s') => f a s' | None => None end.
Local Notation "x <-- m ;;; k" := (bind m (fun x => k))
  (at level 61, m at next level, right associativity).

Definition fail {A} : HM A := fun _ => None.

Definition alloc (t : Tensor) : HM nat :=
  fun s => Some (h_next s,
    mkHSt (heap_upd (h_heap s) (h_next s) t) (S (h_next s)) (h_x s) (h_samples s) (h_draws s)).

Definition read (l : nat) : HM Tensor :=
  fun s => match h_heap s l with Some t => Some (t, s) | None => None end.

Definition get_x : HM nat := fun s => Some (h_x s, s).

Definition set_x (l : nat) : HM unit :=
  fun s => Some (tt, mkHSt (h_heap s) (h_next s) l (h_samples s) (h_draws s)).

Definition append_sample (l : nat) : HM unit :=
  fun s => Some (tt, mkHSt (h_heap s) (h_next s) (h_x s) (h_samples s ++ [l]) (h_draws s)).

Definition draw : HM nat :=
  fun s => Some (h_draws s, mkHSt (h_heap s) (h_next s) (h_x s) (h_samples s) (S (h_draws s))).

Definition lift (o : option Tensor) : HM Tensor :=
  match o with Some t => ret t | None => fail end.

Section HeapSampler.

Variable score_nn : Tensor -> Tensor -> Tensor.
Variable noise : nat -> nat -> Q.
Variable qsqrt : Q -> Q.

Definition h_inner_step (lused : nat) (step : Q) : HM unit :=
  lx <-- get_x ;;; x <-- read lx ;;;
  (* samples.append(torch.clamp(x, -1.0, 1.0).to('cpu')) *)
  lsnap <-- alloc (clamp (-1) 1 x) ;;; _ <-- append_sample lsnap ;;;
  (* z = torch.randn_like(x) * torch.tensor(torch.sqrt(2 * step_size)) *)
  k <-- draw ;;; lr <-- alloc (randn_like noise k x) ;;; r <-- read lr ;;;
  lz <-- alloc (scale_r r (qsqrt (2 * step))) ;;; z <-- read lz ;;;
  (* score = score_nn(x, used_sigmas) *)
  used <-- read lused ;;; lsc <-- alloc (score_nn x used) ;;; sc <-- read lsc ;;;
  (* x = x + step_size * score + z *)
  lm <-- alloc (scale_l step sc) ;;; m <-- read lm ;;;
  t1 <-- lift (add x m) ;;; l1 <-- alloc t1 ;;;
  t2 <-- lift (add t1 z) ;;; l2 <-- alloc t2 ;;;
  set_x l2.

Fixpoint h_inner_loop (T : nat) (lused : nat) (step : Q) : HM unit :=
  match T with
  | O => ret tt
  | S T' => _ <-- h_inner_step lused step ;;; h_inner_loop T' lused step
  end.

Fixpoint h_outer_loop (sigmas : list Q) (eps : Q) (T : nat)
    (label : nat) (rest : list Q) : HM unit :=
  match rest with
  | [] => ret tt
  | sigma :: rest' =>
      lx <-- get_x ;;; x <-- read lx ;;;
      lused <-- alloc (used_sigmas_of sigmas label x) ;;;
      _ <-- h_inner_loop T lused (step_size eps sigmas sigma) ;;;
      h_outer_loop sigmas eps T (S label) rest'
  end.

(** The call: the caller's tensor is the object at location [lx0]. *)
Definition h_run (h : Heap) (next lx0 : nat) (sigmas : list Q) (eps : Q) (T : nat)
  : option (unit * HSt) :=
  h_outer_loop sigmas eps T 0 sigmas (mkHSt h next lx0 [] 0).

End HeapSampler.

End Store.

(** ** The attention layer of the UNet (AttLayer in layers.py) *)
Module Attention.

Record AttLayer := mkAttLayer {
  att_dim : nat;
  scale : R;
  n_heads : nat;
  proj_in : nat; proj_out : nat;   (* nn.Linear(n_channels, 3 * n_heads * att_dim) *)
  out_in : nat; out_out : nat      (* nn.Linear(n_heads * att_dim, n_channels) *)
}.

(** [AttLayer.__init__].  The float power [att_dim ** (-0.5)] raises
    [ZeroDivisionError] when [att_dim] is [0]. *)
Definition init (n_channels n_heads : nat) : option AttLayer :=
  let att_dim := (n_channels * 10)%nat in
  if Nat.eqb att_dim 0 then None
  else Some (mkAttLayer att_dim (Rpower (INR att_dim) (-0.5)%R) n_heads
               n_channels (3 * n_heads * att_dim) (n_heads * att_dim) n_channels).

(** Sizes of the pieces of [torch.chunk] of a dimension of size [n] into
    [chunks] pieces: each piece has [ceil(n / chunks)] elements, the last
    one possibly fewer. *)
Definition chunk_sizes (n chunks : nat) : list nat :=
  let c := ((n + chunks - 1) / chunks)%nat in
  if Nat.eqb c 0 then []
  else repeat c (n / c) ++ (if Nat.eqb (n mod c) 0 then [] else [n mod c]).

(** Last dimension of [self.proj(x).view(b_size, -1, self.n_heads, 3 * self.att_dim)]
    and of [q, k, v = torch.chunk(proj, 3, dim=-1)]. *)
Definition proj_head_dim (l : AttLayer) : nat := (3 * att_dim l)%nat.
Definition qkv_head_dims (l : AttLayer) : list nat := chunk_sizes (proj_head_dim l) 3.

End Attention.

(** ** Shapes through the layers of the UNet (layers.py)

    The layers are modelled at the level of tensor shapes: each PyTorch
    module used by the repository is a function from input shapes to the
    output shape, [None] where PyTorch raises an error (a channel or
    feature mismatch, a kernel larger than the padded input, a failed
    construction check). *)
Module TorchShape.

(** Broadcasting of two shapes: aligned from the right, two sizes agree when
    equal or when one of them is [1]; a missing leading size counts as [1]. *)
Fixpoint bcast_rev (a b : list nat) : option (list nat) :=
  match a, b with
  | [], _ => Some b
  | _, [] => Some a
  | x :: a', y :: b' =>
      r <- bcast_rev a' b' ;;
      if Nat.eqb x y then Some (x :: r)
      else if Nat.eqb x 1 then Some (y :: r)
      else if Nat.eqb y 1 then Some (x :: r)
      else None
  end.

Definition broadcast (a b : list nat) : option (list nat) :=
  r <- bcast_rev (rev a) (rev b) ;; Some (rev r).

(** [nn.Conv2d(cin, cout, k, s, p)] on a batched input [[N; C; H; W]]:
    [C] must be [cin]; each spatial size becomes [(size + 2p - k) / s + 1]
    and a kernel larger than the padded input is an error. *)
Definition conv_size (k s p n : nat) : option nat :=
  if Nat.ltb (n + 2 * p) k then None else Some ((n + 2 * p - k) / s + 1)%nat.

Definition conv2d (cin cout k s p : nat) (x : list nat) : option (list nat) :=
  match x with
  | [n; c; h; w] =>
      if Nat.eqb c cin then
        h' <- conv_size k s p h ;; w' <- conv_size k s p w ;; Some [n; cout; h'; w']
      else None
  | _ => None
  end.

(** [nn.ConvTranspose2d(cin, cout, k, s, p)]: each spatial size becomes
    [(size - 1) * s - 2p + k]; a non-positive result is an error. *)
Definition convT_size (k s p n : nat) : option nat :=
  let r := ((Z.of_nat n - 1) * Z.of_nat s - 2 * Z.of_nat p + Z.of_nat k)%Z in
  if Z.leb r 0 then None else Some (Z.to_nat r).

Definition conv_transpose2d (cin cout k s p : nat) (x : list nat) : option (list nat) :=
  match x with
  | [n; c; h; w] =>
      if Nat.eqb c cin then
        h' <- convT_size k s p h ;; w' <- convT_size k s p w ;; Some [n; cout; h'; w']
      else None
  | _ => None
  end.

(** [nn.Linear(fin, fout)]: the last size must be [fin] and becomes [fout]. *)
Definition linear (fin fout : nat) (x : list nat) : option (list nat) :=
  match rev x with
  | d :: r => if Nat.eqb d fin then Some (rev (fout :: r)) else None
  | [] => None
  end.

(** [nn.GroupNorm(G, C)]: construction requires [C mod G = 0].  The forward
    pass [F.group_norm] first runs
    [_verify_batch_size([N * C' // G, G] + sizes[2:])], a [ValueError] when
    [(N * C' // G) * prod(sizes[2:]) = 1]; the input's second size [C'] must be
    [C]; the shape is kept. *)
Definition group_norm_ok (g c : nat) : bool := Nat.eqb (c mod g) 0.




End TorchShape.

Module Unet.
Import TorchShape.

(** [ResBlock(in_channels, out_channels, n_embed, n_groups=32)] *)
Record ResBlock := mkResBlock {
  rb_in : nat; rb_out : nat; rb_embed : nat;
  rb_identity_shortcut : bool   (* in_channels == out_channels *)
}.

Definition n_groups : nat := 32.

Definition resblock_init (cin cout ne : nat) : option ResBlock :=
  if group_norm_ok n_groups cin && group_norm_ok n_groups cout
  then Some (mkResBlock cin cout ne (Nat.eqb cin cout))
  else None.


(** [DownSample(in, out)]: [nn.Conv2d(out, out, 3, 2, 1)]. *)
Definition downsample_forward (cin cout : nat) (x : list nat) : option (list nat) :=
  conv2d cout cout 3 2 1 x.

(** [UpSample(in, out)]: [nn.ConvTranspose2d(out, out', 4, 2, 1)] with
    [out' = out // 2] when [in < out] and [out' = out] otherwise. *)
Definition upsample_out (cin cout : nat) : nat :=
  if Nat.ltb cin cout then (cout / 2)%nat else cout.

Definition upsample_forward (cin cout : nat) (x : list nat) : option (list nat) :=
  conv_transpose2d cout (upsample_out cin cout) 4 2 1 x.

Inductive SampleKind := Down | Up.

Inductive Layer :=
| LRes (r : ResBlock)
| LAtt (a : Attention.AttLayer)
| LSample (k : SampleKind) (cin cout : nat).

(** The loop of [UnetBlock._make_block]:
    [for i in range(num_res): append ResBlock(in_channels, out_channels);
     if is_attn and i != num_res - 1: append AttLayer(out_channels);
     in_channels = out_channels]. *)
Fixpoint make_res_layers (num_res : nat) (idxs : list nat) (cin cout ne : nat)
    (is_attn : bool) : option (list Layer) :=
  match idxs with
  | [] => Some []
  | i :: rest =>
      r <- resblock_init cin cout ne ;;
      att <- (if is_attn && negb (Nat.eqb i (num_res - 1))
              then a <- Attention.init cout 1 ;; Some [LAtt a]
              else Some []) ;;
      tl <- make_res_layers num_res rest cout cout ne is_attn ;;
      Some (LRes r :: att ++ tl)
  end.

(** [UnetBlock._make_block]; [sample] is [None] or the class to append. *)
Definition make_block (cin cout ne num_res : nat) (sample : option SampleKind)
    (is_attn : bool) : option (list Layer) :=
  l <- make_res_layers num_res (seq 0 num_res) cin cout ne is_attn ;;
  Some (l ++ match sample with
             | Some k => [LSample k cin cout]
             | None => []
             end).

Definition is_down (l : Layer) : bool :=
  match l with LSample Down _ _ => true | _ => false end.

(** The class of a layer of the [nn.ModuleList]. *)
Inductive LayerKind := KRes | KAtt | KSample.

Definition layer_kind (l : Layer) : LayerKind :=
  match l with LRes _ => KRes | LAtt _ => KAtt | LSample _ _ _ => KSample end.

(** [UnetBlock.forward(x, t_emb)], for any way [apply] of running one layer:
    the first [DownSample] returns at once its output and its input. *)
Section Forward.
Variable Tn : Type.
Variable apply : Layer -> Tn -> Tn -> Tn.

Fixpoint unet_forward (layers : list Layer) (x t_emb : Tn) : Tn * option Tn :=
  match layers with
  | [] => (x, None)
  | l :: ls =>
      if is_down l then (apply l x t_emb, Some x)
      else unet_forward ls (apply l x t_emb) t_emb
  end.

Fixpoint run_layers (layers : list Layer) (x t_emb : Tn) : Tn :=
  match layers with
  | [] => x
  | l :: ls => run_layers ls (apply l x t_emb) t_emb
  end.
End Forward.

End Unet.

(** ** The forward pass of the attention layer, at the level of shapes *)
Module AttentionShape.
Import TorchShape Attention.

Fixpoint prod (l : list nat) : nat :=
  match l with [] => 1%nat | d :: r => (d * prod r)%nat end.

(** A strided tensor: its sizes and its strides (in elements). *)
Record Layout := mkLayout { sizes : list nat ; strides : list nat }.

(** Strides of a contiguous (row-major) tensor of the given sizes. *)
Fixpoint contig (s : list nat) : list nat :=
  match s with [] => [] | _ :: r => prod r :: contig r end.

Definition contiguous (s : list nat) : Layout := mkLayout s (contig s).

(** [infer_size(sizes, numel)]: [None] stands for the size [-1] inferred
    from the number of elements; the known sizes must then have a non-zero
    product dividing the number of elements, otherwise PyTorch raises an
    error. *)
Definition infer_size (x : list nat) (spec : list (option nat)) : option (list nat) :=
  let numel := prod x in
  let known := prod (map (fun o => match o with Some d => d | None => 1%nat end) spec) in
  let holes := length (filter (fun o => match o with None => true | _ => false end) spec) in
  match holes with
  | O => if Nat.eqb known numel
         then Some (map (fun o => match o with Some d => d | None => 1%nat end) spec)
         else None
  | 1%nat => if Nat.eqb known 0 then None
             else if Nat.eqb (numel mod known) 0
             then Some (map (fun o => match o with Some d => d | None => (numel / known)%nat end) spec)
             else None
  | _ => None
  end.

(** ATen's [computeStride(oldshape, oldstride, newshape)], which decides
    whether [view] can reuse the storage.  The old dimensions are walked
    from the last one, grouped into chunks that are contiguous among
    themselves; the new dimensions (also from the last one) must split each
    chunk exactly.  [cs_fill] is the inner [while] loop over the new
    dimensions, [cs_loop] the outer [for] loop over the old ones. *)
Fixpoint cs_fill (view : list nat) (view_numel chunk_base tensor_numel : nat)
    (acc : list nat) : list nat * nat * list nat :=
  match view with
  | d :: v' =>
      if Nat.ltb view_numel tensor_numel || Nat.eqb d 1
      then cs_fill v' (view_numel * d)%nat chunk_base tensor_numel ((view_numel * chunk_base)%nat :: acc)
      else (view, view_numel, acc)
  | [] => ([], view_numel, acc)
  end.

Fixpoint cs_loop (old : list (nat * nat)) (chunk_base tensor_numel view_numel : nat)
    (view : list nat) (acc : list nat) : option (list nat) :=
  match old with
  | [] => None
  | (sz, _) :: rest =>
      let tn := (tensor_numel * sz)%nat in
      let boundary := match rest with
                      | [] => true
                      | (psz, pst) :: _ =>
                          negb (Nat.eqb psz 1) && negb (Nat.eqb pst (tn * chunk_base)%nat)
                      end in
      if boundary then
        match cs_fill view view_numel chunk_base tn acc with
        | (view', vn, acc') =>
            if negb (Nat.eqb vn tn) then None else
            match rest with
            | [] => match view' with [] => Some acc' | _ => None end
            | (_, pst) :: _ => cs_loop rest pst 1 1 view' acc'
            end
        end
      else cs_loop rest chunk_base tn view_numel view acc
  end.

(** Strides chosen for a tensor without elements. *)
Fixpoint zero_numel_strides (s : list nat) : list nat :=
  match s with
  | [] => []
  | _ :: r => match r with
              | [] => [1%nat]
              | d' :: _ => (Nat.max d' 1 * hd 1%nat (zero_numel_strides r))%nat :: zero_numel_strides r
              end
  end.

Definition compute_stride (oldshape oldstride newshape : list nat) : option (list nat) :=
  match oldshape with
  | [] => Some (repeat 1%nat (length newshape))
  | _ =>
      if Nat.eqb (prod oldshape) 0 then
        if list_nat_eqb oldshape newshape then Some oldstride
        else Some (zero_numel_strides newshape)
      else cs_loop (rev (combine oldshape oldstride)) (last oldstride 0%nat) 1 1 (rev newshape) []
  end.

(** [t.view(sizes)]: the sizes are inferred, then the strides computed; a
    view the strides do not allow is a [RuntimeError]. *)
Definition view (x : Layout) (spec : list (option nat)) : option Layout :=
  s <- infer_size (sizes x) spec ;;
  st <- compute_stride (sizes x) (strides x) s ;;
  Some (mkLayout s st).

(** [t.permute(p)]: a view with the sizes and strides permuted. *)
Definition permute (p : list nat) (x : Layout) : option Layout :=
  if Nat.eqb (length p) (length (sizes x))
  then Some (mkLayout (map (fun i => nth i (sizes x) 0%nat) p) (map (fun i => nth i (strides x) 0%nat) p))
  else None.

(** [torch.chunk(t, 3, dim=-1)] unpacked into [q, k, v] (their sizes). *)
Definition chunk3_last (x : list nat) : option (list nat * list nat * list nat) :=
  match rev x with
  | d :: r =>
      match chunk_sizes d 3 with
      | [a; b; c] => Some (rev (a :: r), rev (b :: r), rev (c :: r))
      | _ => None
      end
  | [] => None
  end.

(** [torch.einsum('bihd,bjhd->bijh', q, k)]: a letter shared by both
    operands must have the same size in both. *)
Definition einsum_qk (q k : list nat) : option (list nat) :=
  match q, k with
  | [b; i; h; d], [b'; j; h'; d'] =>
      if Nat.eqb b b' && Nat.eqb h h' && Nat.eqb d d' then Some [b; i; j; h] else None
  | _, _ => None
  end.

(** [torch.einsum('bijh,bjhd->bihd', soft, v)] *)
Definition einsum_sv (s v : list nat) : option (list nat) :=
  match s, v with
  | [b; i; j; h], [b'; j'; h'; d] =>
      if Nat.eqb b b' && Nat.eqb j j' && Nat.eqb h h' then Some [b; i; h; d] else None
  | _, _ => None
  end.

(** The strides of the result of [torch.einsum('bijh,bjhd->bihd', soft, v)]:
    the contraction over [j] is a batched matrix product over the batch
    letters [b, h], whose result [[b; h; i; d]] is contiguous and then
    permuted to the output order [bihd]. *)
Definition einsum_sv_strides (s : list nat) : list nat :=
  match s with
  | [b; i; h; d] => [(h * i * d)%nat; d; (i * d)%nat; 1%nat]
  | _ => contig s
  end.

(** [AttLayer.forward(x, t)] on layouts.  [sv_strides o] are the strides
    of the result of the second [einsum], given its sizes [o]; the outputs
    of [nn.Linear] are contiguous, and [out += x] keeps the layout of
    [out]. *)
Section AttForward.
Variable sv_strides : list nat -> list nat.

Definition att_forward (l : AttLayer) (x : Layout) : option Layout :=
  match sizes x with
  | [b; c; w; h] =>
      x1 <- view x [Some b; Some c; None] ;;
      x2 <- permute [0; 2; 1]%nat x1 ;;
      p0 <- linear (proj_in l) (proj_out l) (sizes x2) ;;
      p <- view (contiguous p0) [Some b; None; Some (n_heads l); Some (3 * att_dim l)%nat] ;;
      qkv <- chunk3_last (sizes p) ;;
      let '(q, k, v) := qkv in
      pr <- einsum_qk q k ;;
      (* [* self.scale] and the softmax keep the sizes *)
      o <- einsum_sv pr v ;;
      o1 <- view (mkLayout o (sv_strides o)) [Some b; None; Some (n_heads l * att_dim l)%nat] ;;
      out <- linear (out_in l) (out_out l) (sizes o1) ;;
      (* out += x: the in-place sum must keep the sizes of out *)
      s <- broadcast out (sizes x2) ;;
      if list_nat_eqb s out then
        (o2 <- view (contiguous out) [Some b; Some w; Some h; Some c] ;; permute [0; 3; 1; 2]%nat o2)
      else None
  | _ => None
  end.
End AttForward.

(** The element moves of the residual path: [x.view(b, c, -1).permute(0, 2, 1)]
    on a contiguous [[B; C; W; H]] tensor puts [x[b, c, i / H, i mod H]] at
    [[b, i, c]], and [out.view(b, w, h, c).permute(0, 3, 1, 2)] reads
    [[b, c, w, h]] from [[b, w * H + h, c]]. *)
Section Residual.
Variable A : Type.
Variable H : nat.

Definition to_sequence (x : nat -> nat -> nat -> nat -> A) : nat -> nat -> nat -> A :=
  fun b i c => x b c (i / H)%nat (i mod H)%nat.

Definition to_image (y : nat -> nat -> nat -> A) : nat -> nat -> nat -> nat -> A :=
  fun b c w h => y b (w * H + h)%nat c.
End Residual.

End AttentionShape.

(** ** Real-valued parts of the layers

    [Swish], [PositionalEncoding] and the softmax of [AttLayer.forward],
    over the real numbers. *)
Module RealLayers.
Local Open Scope R_scope.

(** [torch.sigmoid] and [Swish.forward]: [x * sigmoid(x)]. *)
Definition sigmoid (x : R) : R := / (1 + exp (- x)).
Definition swish (x : R) : R := x * sigmoid x.

(** [PositionalEncoding.forward(t, n_embed)] for a vector [t] of time
    stamps: [h = log(10000) / (n_embed // 2)] (a [ZeroDivisionError] when
    [n_embed // 2 = 0]), frequencies [exp(-h * k)] for [k < n_embed // 2],
    each row the sines followed by the cosines of [t * frequency]. *)
Definition pe_h (n_embed : nat) : R := ln 10000 / INR (n_embed / 2).

Definition pe_freq (n_embed k : nat) : R := exp (INR k * - pe_h n_embed).

Definition pe_row (n_embed : nat) (t : R) : list R :=
  map (fun k => sin (t * pe_freq n_embed k)) (seq 0 (n_embed / 2)) ++
  map (fun k => cos (t * pe_freq n_embed k)) (seq 0 (n_embed / 2)).

Definition positional_encoding (t : list R) (n_embed : nat) : option (list (list R)) :=
  if Nat.eqb (n_embed / 2) 0 then None else Some (map (pe_row n_embed) t).

(** Sums over [0 .. n-1]. *)
Fixpoint sumR (n : nat) (f : nat -> R) : R :=
  match n with O => 0 | S n' => sumR n' f + f n' end.

(** [prod.softmax(dim=1)] on the scores [p i j] of one batch element and one
    head, [i] the query position and [j] the key position: the normalisation
    runs over the [n] query positions [i]. *)
Definition softmax_dim1 (n : nat) (p : nat -> nat -> R) : nat -> nat -> R :=
  fun i j => exp (p i j) / sumR n (fun i' => exp (p i' j)).

End RealLayers.

(** [EmbLayer(n_embed, scale_fact)] and its forward pass on shapes. *)
Module EmbShape.
Import TorchShape.

(** Shape of [PositionalEncoding.forward(t, n)] for [t] of shape [[b]]. *)
Definition pe_shape (t : list nat) (n : nat) : option (list nat) :=
  match t with
  | [b] => if Nat.eqb (n / 2) 0 then None else Some [b; (2 * (n / 2))%nat]
  | _ => None
  end.

(** [n_embed_scaled = n_embed // scale_fact] ([ZeroDivisionError] for
    [scale_fact = 0]); [lin1 = nn.Linear(n_embed_scaled, n_embed)],
    [lin2 = nn.Linear(n_embed, n_embed)]. *)
Definition emb_forward (n_embed scale_fact : nat) (t : list nat) : option (list nat) :=
  if Nat.eqb scale_fact 0 then None else
  let ns := (n_embed / scale_fact)%nat in
  e <- pe_shape t ns ;;
  e1 <- linear ns n_embed e ;;
  linear n_embed n_embed e1.

End EmbShape.

(** ** The validation loop of src/vae_flows/main.py

    [for _ in range(int(n_valid / b_size))]: decode one batch and save each
    decoded object as ["{path}/{i}.png"], incrementing [i].  The decoder is
    not part of the sources; [decoded k] is the number of objects it returns
    for batch [k].  [int(n_valid / b_size)] truncates the quotient
    ([ZeroDivisionError] for [b_size = 0]). *)
Module Validation.

Definition n_batches (n_valid b_size : nat) : option nat :=
  if Nat.eqb b_size 0 then None
  else Some (Z.to_nat (Qfloor (Z.of_nat n_valid # Pos.of_nat b_size))).

(** Names of the files saved by the batches [k, k+1, ...], starting at [i]. *)
Fixpoint save_batches (decoded : nat -> nat) (k nb i : nat) : list nat :=
  match nb with
  | O => []
  | S nb' => seq i (decoded k) ++ save_batches decoded (S k) nb' (i + decoded k)
  end.

Definition saved_files (decoded : nat -> nat) (n_valid b_size : nat) : option (list nat) :=
  nb <- n_batches n_valid b_size ;; Some (save_batches decoded 0 nb 0).

End Validation.

(** The indices of the random draws recorded in a trace, in order. *)
Fixpoint noise_indices (log : list Event) : list nat :=
  match log with
  | [] => []
  | ENoise k _ _ :: r => k :: noise_indices r
  | _ :: r => noise_indices r
  end.

(** * Properties *)

(** ** Tensor operations *)

Lemma list_nat_eqb_eq : forall a b, list_nat_eqb a b = true <-> a = b.
Proof.
  induction a as [|x a IH]; destruct b as [|y b]; simpl; split; intro H;
    try congruence.
  - apply andb_true_iff in H as [H1 H2].
    apply Nat.eqb_eq in H1; apply IH in H2; subst; reflexivity.
  - injection H as -> ->. apply andb_true_iff; split.
    + apply Nat.eqb_refl.
    + apply IH; reflexivity.
Qed.

Lemma add_shape : forall t u r, add t u = Some r -> shape r = shape t.
Proof.
  unfold add; intros t u r H.
  destruct (list_nat_eqb (shape t) (shape u)); [|discriminate].
  injection H as <-; reflexivity.
Qed.

Lemma add_same_shape : forall t u, shape t = shape u ->
  add t u = Some (mkTensor (shape t) (map (fun p => fst p + snd p) (combine (data t) (data u)))).
Proof.
  unfold add; intros t u H. apply list_nat_eqb_eq in H. rewrite H. reflexivity.
Qed.

Lemma langevin_update_shape : forall x step sc z x',
  langevin_update x step sc z = Some x' -> shape x' = shape x.
Proof.
  unfold langevin_update, obind; intros x step sc z x' H.
  destruct (add x (scale_l step sc)) as [x1|] eqn:E; [|discriminate].
  apply add_shape in H; apply add_shape in E; congruence.
Qed.

Lemma map_nth_repeat : forall (l : list Q) (i n : nat),
  map (fun j => nth j l 0) (repeat i n) = repeat (nth i l 0) n.
Proof. intros l i n; induction n as [|n IH]; simpl; congruence. Qed.

Lemma last_nth : forall (l : list Q) (d : Q), last l d = nth (length l - 1) l d.
Proof.
  induction l as [|a l IH]; intro d; [reflexivity|].
  destruct l as [|b l]; [reflexivity|].
  transitivity (last (b :: l) d); [reflexivity|].
  rewrite IH. simpl. rewrite Nat.sub_0_r. reflexivity.
Qed.

Lemma skipn_cons_nth : forall (l r : list Q) (n : nat) (a : Q),
  skipn n l = a :: r -> nth n l 0 = a /\ skipn (S n) l = r.
Proof.
  induction l as [|b l IH]; intros r n a H.
  - destruct n; discriminate.
  - destruct n as [|n]; simpl in H |- *.
    + injection H as -> ->; split; reflexivity.
    + apply IH in H; exact H.
Qed.

(** ** The loop of the sampler against the specification's loop *)

Section Refinement.

Variable score_nn : Tensor -> Tensor -> Tensor.
Variable noise : nat -> nat -> Q.
Variable qsqrt : Q -> Q.

Lemma inner_step_shape : forall used step s s',
  inner_step score_nn noise qsqrt used step s = Some s' ->
  shape (st_x s') = shape (st_x s).
Proof.
  unfold inner_step, obind; intros used step s s' H.
  destruct (langevin_update _ _ _ _) as [x'|] eqn:E; [|discriminate].
  injection H as <-; simpl. eapply langevin_update_shape; eauto.
Qed.

Lemma inner_step_spec : forall sigma step s,
  inner_step score_nn noise qsqrt (spec_broadcast sigma (st_x s)) step s
  = spec_iteration score_nn noise qsqrt sigma step s.
Proof.
  intros sigma step s.
  unfold inner_step, spec_iteration, langevin_update, obind.
  destruct (add _ _); reflexivity.
Qed.

Lemma inner_loop_spec : forall T sigma step s used,
  used = spec_broadcast sigma (st_x s) ->
  inner_loop score_nn noise qsqrt T used step s
  = repeat_opt T (spec_iteration score_nn noise qsqrt sigma step) s.
Proof.
  induction T as [|T IH]; intros sigma step s used Hu; [reflexivity|].
  simpl. rewrite Hu, inner_step_spec. unfold obind.
  destruct (spec_iteration _ _ _ _ _ s) as [s'|] eqn:E; [|reflexivity].
  apply IH. rewrite <- inner_step_spec in E.
  apply inner_step_shape in E.
  unfold spec_broadcast, size0. rewrite E. reflexivity.
Qed.

Lemma outer_loop_spec : forall sigmas eps T rest label s,
  skipn label sigmas = rest ->
  outer_loop score_nn noise qsqrt sigmas eps T label rest s
  = fold_opt (spec_level score_nn noise qsqrt sigmas eps T) (seq label (length rest)) s.
Proof.
  intros sigmas eps T rest; induction rest as [|sigma rest IH];
    intros label s Hr; [reflexivity|].
  apply skipn_cons_nth in Hr as [Hn Hr].
  simpl. unfold spec_level, step_size. rewrite Hn, last_nth.
  rewrite (inner_loop_spec T sigma).
  - unfold obind. destruct (repeat_opt _ _ _); [|reflexivity].
    apply IH; exact Hr.
  - unfold used_sigmas_of, spec_broadcast. simpl.
    rewrite map_nth_repeat, Hn. reflexivity.
Qed.

End Refinement.

Section Tags.

Variable score_fn : Tensor -> Tensor -> Tensor.
Variable noise : nat -> nat -> Q.
Variable qsqrt : Q -> Q.

Lemma spec_iteration_tags : forall sigma step s s',
  spec_iteration score_fn noise qsqrt sigma step s = Some s' ->
  map tag (st_log s') = map tag (st_log s) ++ iteration_tags qsqrt (size0 (st_x s)) sigma step
  /\ size0 (st_x s') = size0 (st_x s).
Proof.
  unfold spec_iteration, obind; intros sigma step s s' H.
  destruct (add (st_x s) _) as [x1|] eqn:E1; [|discriminate].
  destruct (add x1 _) as [x2|] eqn:E2; [|discriminate].
  injection H as <-; simpl.
  apply add_shape in E1; apply add_shape in E2.
  split.
  - rewrite map_app. reflexivity.
  - unfold size0. congruence.
Qed.

Lemma repeat_opt_tags : forall T sigma step s s',
  repeat_opt T (spec_iteration score_fn noise qsqrt sigma step) s = Some s' ->
  map tag (st_log s') = map tag (st_log s)
    ++ concat (repeat (iteration_tags qsqrt (size0 (st_x s)) sigma step) T)
  /\ size0 (st_x s') = size0 (st_x s).
Proof.
  induction T as [|T IH]; intros sigma step s s' H; simpl in H.
  - injection H as <-; simpl; rewrite app_nil_r; split; reflexivity.
  - unfold obind in H.
    destruct (spec_iteration _ _ _ _ _ s) as [s1|] eqn:E; [|discriminate].
    apply spec_iteration_tags in E as [E1 E2].
    apply IH in H as [H1 H2].
    rewrite H1, E1, E2, <- app_assoc. split; [reflexivity | congruence].
Qed.

Lemma fold_opt_tags : forall sigmas eps T is s s',
  fold_opt (spec_level score_fn noise qsqrt sigmas eps T) is s = Some s' ->
  map tag (st_log s') = map tag (st_log s)
    ++ flat_map (level_tags qsqrt sigmas eps T (size0 (st_x s))) is
  /\ size0 (st_x s') = size0 (st_x s).
Proof.
  intros sigmas eps T; induction is as [|i is IH]; intros s s' H; simpl in H.
  - injection H as <-; simpl; rewrite app_nil_r; split; reflexivity.
  - unfold obind in H.
    destruct (spec_level _ _ _ _ _ _ i s) as [s1|] eqn:E; [|discriminate].
    unfold spec_level in E. apply repeat_opt_tags in E as [E1 E2].
    apply IH in H as [H1 H2]. simpl in E1, E2.
    rewrite H1, E1, E2, map_app, <- !app_assoc. simpl.
    split; [reflexivity | congruence].
Qed.

End Tags.

(** ** Invariants of the loop *)

Lemma clamp_bounds : forall v : Q, -1 <= Qmin (Qmax v (-1)) 1 <= 1.
Proof.
  intro v; split.
  - apply Q.min_glb; [apply Q.le_max_r | discriminate].
  - apply Q.le_min_r.
Qed.

Section Invariants.

Variable score_nn : Tensor -> Tensor -> Tensor.
Variable noise : nat -> nat -> Q.
Variable qsqrt : Q -> Q.

Variable P : St -> Prop.
Hypothesis P_step : forall used step s s',
  P s -> inner_step score_nn noise qsqrt used step s = Some s' -> P s'.
Hypothesis P_log : forall s e,
  P s -> P (mkSt (st_x s) (st_samples s) (st_draws s) (st_log s ++ [e])).

Lemma inner_loop_preserves : forall T used step s s',
  P s -> inner_loop score_nn noise qsqrt T used step s = Some s' -> P s'.
Proof.
  induction T as [|T IH]; intros used step s s' Hs H; simpl in H.
  - injection H as <-; exact Hs.
  - unfold obind in H.
    destruct (inner_step _ _ _ _ _ s) as [s1|] eqn:E; [|discriminate].
    eapply IH; [eapply P_step; eauto | exact H].
Qed.

Lemma outer_loop_preserves : forall sigmas eps T rest label s s',
  P s -> outer_loop score_nn noise qsqrt sigmas eps T label rest s = Some s' -> P s'.
Proof.
  intros sigmas eps T; induction rest as [|sigma rest IH]; intros label s s' Hs H;
    simpl in H.
  - injection H as <-; exact Hs.
  - unfold obind in H.
    destruct (inner_loop _ _ _ _ _ _ _) as [s1|] eqn:E; [|discriminate].
    eapply IH; [|exact H].
    eapply inner_loop_preserves; [apply P_log; exact Hs | exact E].
Qed.

Lemma run_preserves : forall x sigmas eps T s,
  P (mkSt x [] 0 []) -> run score_nn noise qsqrt x sigmas eps T = Some s -> P s.
Proof. intros; eapply outer_loop_preserves; eauto. Qed.

End Invariants.

(** The updates of the loop, as the steps of [Traj]. *)
Section Trajectory.

Variable score_nn : Tensor -> Tensor -> Tensor.
Variable noise : nat -> nat -> Q.
Variable qsqrt : Q -> Q.
Variable sigmas : list Q.
Variable eps : Q.
Variable T : nat.
Variable x0 : Tensor.

Lemma Traj_snoc : forall j x xs y y',
  Traj score_nn noise qsqrt sigmas eps T j x xs y ->
  traj_step score_nn noise qsqrt sigmas eps T (j + length xs) y = Some y' ->
  Traj score_nn noise qsqrt sigmas eps T j x (xs ++ [y]) y'.
Proof.
  intros j x xs y y' H; induction H as [j x|j x x' xs y Hs H IH]; intro Hu; simpl.
  - rewrite Nat.add_0_r in Hu. econstructor; [exact Hu | constructor].
  - econstructor; [exact Hs|]. apply IH. rewrite <- Hu. f_equal. simpl. lia.
Qed.

Lemma used_sigmas_shape : forall label a b,
  shape a = shape b -> used_sigmas_of sigmas label a = used_sigmas_of sigmas label b.
Proof. intros label a b H. unfold used_sigmas_of, size0. rewrite H. reflexivity. Qed.

(** The snapshots so far are the clamps of the values [x] held before each
    update, and one draw was taken per update. *)
Definition TrajInv (s : St) : Prop :=
  exists xs, st_samples s = map (clamp (-1) 1) xs
    /\ Traj score_nn noise qsqrt sigmas eps T 0 x0 xs (st_x s)
    /\ length xs = st_draws s.

Lemma inner_loop_traj : forall n label used step s s',
  inner_loop score_nn noise qsqrt n used step s = Some s' ->
  used = used_sigmas_of sigmas label (st_x s) ->
  step = step_size eps sigmas (nth label sigmas 0) ->
  (label * T <= st_draws s)%nat -> (st_draws s + n <= label * T + T)%nat ->
  TrajInv s ->
  TrajInv s' /\ st_draws s' = (st_draws s + n)%nat /\ shape (st_x s') = shape (st_x s).
Proof.
  induction n as [|n IH]; intros label used step s s' H Hu Hst Hlo Hhi Hinv; simpl in H.
  - injection H as <-. rewrite Nat.add_0_r. split; [exact Hinv | split; reflexivity].
  - destruct (inner_step score_nn noise qsqrt used step s) as [s1|] eqn:E; [|discriminate].
    cbn [obind] in H.
    unfold inner_step in E.
    destruct (langevin_update _ _ _ _) as [x'|] eqn:Eu; [|discriminate].
    cbn [obind] in E. injection E as <-.
    pose proof (langevin_update_shape _ _ _ _ _ Eu) as Hsh.
    destruct Hinv as [xs [Hm [Ht Hl]]].
    assert (Hlab : (st_draws s / T)%nat = label).
    { symmetry. apply (Nat.div_unique _ _ _ (st_draws s - label * T)); lia. }
    edestruct (IH label used step) as [I1 [I2 I3]]; [exact H | | exact Hst | | | |].
    + cbn [st_x]. rewrite Hu. apply used_sigmas_shape. symmetry. exact Hsh.
    + simpl. lia.
    + simpl. lia.
    + exists (xs ++ [st_x s]). cbn [st_samples st_x st_draws]. split; [|split].
      * rewrite map_app, Hm. reflexivity.
      * apply Traj_snoc; [exact Ht|]. rewrite Hl. simpl. unfold traj_step.
        rewrite Hlab, <- Hst, <- Hu. exact Eu.
      * rewrite length_app, Hl. simpl. lia.
    + split; [exact I1|]. simpl in I2, I3. split; [lia|]. rewrite I3. exact Hsh.
Qed.

Lemma outer_loop_traj : forall rest label s s',
  outer_loop score_nn noise qsqrt sigmas eps T label rest s = Some s' ->
  skipn label sigmas = rest -> st_draws s = (label * T)%nat ->
  TrajInv s -> TrajInv s'.
Proof.
  induction rest as [|sigma rest IH]; intros label s s' H Hr Hd Hinv; simpl in H.
  - injection H as <-. exact Hinv.
  - destruct (inner_loop _ _ _ _ _ _ _) as [s2|] eqn:E; [|discriminate].
    cbn [obind] in H.
    destruct (skipn_cons_nth sigmas rest label sigma Hr) as [Hn Hs].
    edestruct (inner_loop_traj T label) as [I1 [I2 _]]; [exact E | reflexivity | | | | |].
    + cbn [st_x]. rewrite Hn. reflexivity.
    + simpl. lia.
    + simpl. lia.
    + exact Hinv.
    + apply (IH (S label) s2); [exact H | exact Hs | | exact I1].
      simpl in I2. lia.
Qed.

End Trajectory.

Section Totality.

Variable score_nn : Tensor -> Tensor -> Tensor.
Variable noise : nat -> nat -> Q.
Variable qsqrt : Q -> Q.
Hypothesis score_shape : forall a sig, shape (score_nn a sig) = shape a.

Definition shaped (sh : list nat) (s : St) : Prop :=
  Forall (fun t => shape t = sh) (st_samples s) /\ shape (st_x s) = sh.

Lemma inner_step_total : forall used step s,
  exists s', inner_step score_nn noise qsqrt used step s = Some s'
    /\ st_samples s' = st_samples s ++ [clamp (-1) 1 (st_x s)]
    /\ shape (st_x s') = shape (st_x s).
Proof.
  intros used step s. unfold inner_step, langevin_update, obind.
  rewrite add_same_shape by (simpl; rewrite score_shape; reflexivity).
  rewrite add_same_shape by reflexivity.
  eexists; split; [reflexivity|]. split; reflexivity.
Qed.

Lemma inner_loop_total : forall T used step sh s, shaped sh s ->
  exists s', inner_loop score_nn noise qsqrt T used step s = Some s'
    /\ length (st_samples s') = (length (st_samples s) + T)%nat
    /\ shaped sh s'.
Proof.
  induction T as [|T IH]; intros used step sh s [Hf Hx].
  - exists s; split; [reflexivity|]. split; [lia | split; assumption].
  - destruct (inner_step_total used step s) as [s1 [E [Es Ex]]].
    destruct (IH used step sh s1) as [s2 [E2 [L2 H2]]].
    + split.
      * rewrite Es. apply Forall_app; split; [exact Hf|].
        constructor; [simpl; exact Hx | constructor].
      * congruence.
    + exists s2; simpl; unfold obind; rewrite E, E2.
      split; [reflexivity|]. split; [|exact H2].
      rewrite L2, Es, length_app; simpl; lia.
Qed.

Lemma outer_loop_total : forall sigmas eps T rest label sh s, shaped sh s ->
  exists s', outer_loop score_nn noise qsqrt sigmas eps T label rest s = Some s'
    /\ length (st_samples s') = (length (st_samples s) + length rest * T)%nat
    /\ shaped sh s'.
Proof.
  intros sigmas eps T; induction rest as [|sigma rest IH]; intros label sh s Hs.
  - exists s; split; [reflexivity|]. split; [simpl; lia | exact Hs].
  - simpl. set (s1 := mkSt _ _ _ _).
    destruct (inner_loop_total T (used_sigmas_of sigmas label (st_x s))
                (step_size eps sigmas sigma) sh s1) as [s2 [E2 [L2 H2]]];
      [exact Hs|].
    destruct (IH (S label) sh s2 H2) as [s3 [E3 [L3 H3]]].
    exists s3; unfold obind; rewrite E2, E3.
    split; [reflexivity|]. split; [|exact H3].
    rewrite L3, L2. simpl. lia.
Qed.

End Totality.

(** ** Claims about the sampler *)

(** C1: the sampler visits every element of [sigmas] exactly once, in index
    order, and at each level performs [T] iterations that record a snapshot,
    draw noise scaled by [sqrt(2 * step_size)], evaluate the score at [x]
    and the level's sigma broadcast to one value per batch element, and
    update [x] to [x + step_size * score + z]: the code's loop equals the
    loop written from the specification, and its trace has the prescribed
    shape. *)
Theorem sampler_follows_schedule : forall score_nn noise qsqrt x sigmas eps T,
  run score_nn noise qsqrt x sigmas eps T = spec_run score_nn noise qsqrt x sigmas eps T
  /\ (forall s, run score_nn noise qsqrt x sigmas eps T = Some s ->
        map tag (st_log s) = expected_tags qsqrt sigmas eps T (size0 x)).
Proof.
  intros score_nn noise qsqrt x sigmas eps T.
  assert (E : run score_nn noise qsqrt x sigmas eps T
              = spec_run score_nn noise qsqrt x sigmas eps T).
  { unfold run, spec_run. apply outer_loop_spec. reflexivity. }
  split; [exact E|].
  intros s H. rewrite E in H. unfold spec_run in H.
  apply fold_opt_tags in H as [H _]. exact H.
Qed.

Lemma sampler_follows_schedule_witness :
  (exists s, run (fun a _ => a) (fun _ _ => 0) (fun q => q)
               (mkTensor [2%nat] [1; 2]) [2; 1] 1 2 = Some s)
  /\ forall s, run (fun a _ => a) (fun _ _ => 0) (fun q => q)
               (mkTensor [2%nat] [1; 2]) [2; 1] 1 2 = Some s ->
     map tag (st_log s) = expected_tags (fun q => q) [2; 1] 1 2 2.
Proof.
  split.
  - vm_compute. eexists. reflexivity.
  - apply (proj2 (sampler_follows_schedule (fun a _ => a) (fun _ _ => 0) (fun q => q)
                   (mkTensor [2%nat] [1; 2]) [2; 1] 1 2)).
Defined.

(** C2: when the score function returns a tensor of the shape of its input,
    the sampler returns exactly [length sigmas * T] snapshots, each of the
    shape of the input [x]. *)
Theorem sampler_output_shape : forall score_nn noise qsqrt x sigmas eps T,
  (forall a sig, shape (score_nn a sig) = shape a) ->
  exists samples,
    sample_anneal_langevin score_nn noise qsqrt x sigmas eps T = Some samples
    /\ length samples = (length sigmas * T)%nat
    /\ Forall (fun t => shape t = shape x) samples.
Proof.
  intros score_nn noise qsqrt x sigmas eps T Hsc.
  destruct (outer_loop_total score_nn noise qsqrt Hsc sigmas eps T sigmas 0 (shape x)
              (mkSt x [] 0 [])) as [s [E [L [Hf _]]]].
  { split; [constructor | reflexivity]. }
  exists (st_samples s). unfold sample_anneal_langevin, run. rewrite E.
  split; [reflexivity|]. split; [exact L | exact Hf].
Qed.

Lemma sampler_output_shape_witness :
  (forall a sig : Tensor, shape ((fun a _ => scale_l 2 a) a sig) = shape a) /\
  exists samples,
    sample_anneal_langevin (fun a _ => scale_l 2 a) (fun k i => inject_Z (Z.of_nat (k + i)))
      (fun q => q) (mkTensor [1%nat; 2%nat] [3; -4]) [3; 2; 1] (1 # 10) 2 = Some samples
    /\ length samples = (length [3; 2; 1] * 2)%nat
    /\ Forall (fun t => shape t = shape (mkTensor [1%nat; 2%nat] [3; -4])) samples.
Proof.
  split; [intros; reflexivity|].
  apply sampler_output_shape. intros; reflexivity.
Defined.

(** C3: every element of every returned snapshot lies in [[-1, 1]]. *)
Theorem snapshots_clamped : forall score_nn noise qsqrt x sigmas eps T samples,
  sample_anneal_langevin score_nn noise qsqrt x sigmas eps T = Some samples ->
  Forall (fun t => Forall (fun v => -1 <= v <= 1) (data t)) samples.
Proof.
  intros score_nn noise qsqrt x sigmas eps T samples H.
  unfold sample_anneal_langevin, obind in H.
  destruct (run _ _ _ _ _ _ _) as [s|] eqn:E; [|discriminate].
  injection H as <-.
  apply (run_preserves score_nn noise qsqrt
           (fun s => Forall (fun t => Forall (fun v => -1 <= v <= 1) (data t)) (st_samples s)))
    with (x := x) (sigmas := sigmas) (eps := eps) (T := T); auto.
  intros used step s0 s1 H0 Hs.
  unfold inner_step, obind in Hs.
  destruct (langevin_update _ _ _ _); [|discriminate].
  injection Hs as <-; simpl.
  apply Forall_app; split; [exact H0|].
  constructor; [|constructor].
  simpl. apply Forall_forall; intros v Hv.
  apply in_map_iff in Hv as [w [<- _]]. apply clamp_bounds.
Qed.

Lemma snapshots_clamped_witness :
  Forall (fun t => Forall (fun v => -1 <= v <= 1) (data t))
    [mkTensor [2%nat] [1; -1]; mkTensor [2%nat] [1; -1]].
Proof.
  apply (snapshots_clamped (fun a _ => a) (fun _ _ => 0) (fun q => q)
           (mkTensor [2%nat] [5; -3]) [1] 1 2).
  vm_compute. reflexivity.
Defined.

Lemma outer_loop_no_steps : forall score_nn noise qsqrt sigmas eps rest label s,
  exists s', outer_loop score_nn noise qsqrt sigmas eps 0 label rest s = Some s'
    /\ st_samples s' = st_samples s.
Proof.
  intros score_nn noise qsqrt sigmas eps; induction rest as [|sigma rest IH];
    intros label s.
  - exists s; split; reflexivity.
  - simpl. destruct (IH (S label)
      (mkSt (st_x s) (st_samples s) (st_draws s)
            (st_log s ++ [ELevel label sigma (step_size eps sigmas sigma)])))
      as [s' [E1 E2]].
    exists s'; split; [exact E1 | exact E2].
Qed.

(** C5: with an empty schedule or [T = 0] the sampler returns the empty
    list without error; with an empty schedule no level is entered, so no
    step size is computed and [sigmas] is never indexed (the trace stays
    empty). *)
Theorem degenerate_inputs_empty : forall score_nn noise qsqrt x sigmas eps T,
  (sigmas = [] \/ T = 0%nat) ->
  sample_anneal_langevin score_nn noise qsqrt x sigmas eps T = Some []
  /\ (sigmas = [] -> run score_nn noise qsqrt x sigmas eps T = Some (mkSt x [] 0 [])).
Proof.
  intros score_nn noise qsqrt x sigmas eps T H.
  split; [|intros ->; reflexivity].
  destruct H as [-> | ->]; [reflexivity|].
  unfold sample_anneal_langevin, run.
  destruct (outer_loop_no_steps score_nn noise qsqrt sigmas eps sigmas 0
              (mkSt x [] 0 [])) as [s' [E1 E2]].
  rewrite E1. simpl. rewrite E2. reflexivity.
Qed.

Lemma degenerate_inputs_empty_witness :
  ([3; 2] = [] \/ (0 = 0)%nat) /\
  sample_anneal_langevin (fun a _ => a) (fun _ _ => 1) (fun q => q)
    (mkTensor [1%nat] [7]) [3; 2] 1 0 = Some []
  /\ ([3; 2] = [] -> run (fun a _ => a) (fun _ _ => 1) (fun q => q)
        (mkTensor [1%nat] [7]) [3; 2] 1 0 = Some (mkSt (mkTensor [1%nat] [7]) [] 0 [])).
Proof.
  split; [right; reflexivity|].
  apply degenerate_inputs_empty. right; reflexivity.
Defined.

(** C6: every snapshot is the clamp of the value [x] held before that
    iteration's update: the snapshots are the clamps of [x_0, ..., x_(n-1)]
    where [x_0] is the input and [x_(k+1)] is obtained from [x_k] by the
    [k]-th update of the loop ([traj_step]: the step size of its level, the
    score at [x_k] and the [k]-th noise draw); the first snapshot is the
    clamp of the input, and the state [x_n] after the final update is the
    final [x], not one of the recorded states. *)
Theorem snapshots_before_update : forall score_nn noise qsqrt x sigmas eps T s,
  run score_nn noise qsqrt x sigmas eps T = Some s ->
  exists xs, st_samples s = map (clamp (-1) 1) xs
    /\ Traj score_nn noise qsqrt sigmas eps T 0 x xs (st_x s)
    /\ (st_samples s <> [] -> hd_error (st_samples s) = Some (clamp (-1) 1 x)).
Proof.
  intros score_nn noise qsqrt x sigmas eps T s H. unfold run in H.
  destruct (outer_loop_traj score_nn noise qsqrt sigmas eps T x sigmas 0 _ s H)
    as [xs [Hm [Ht _]]]; [reflexivity | reflexivity | |].
  { exists []. split; [reflexivity|]. split; [constructor | reflexivity]. }
  exists xs. split; [exact Hm|]. split; [exact Ht|].
  intro Hne. rewrite Hm. inversion Ht; subst; [|reflexivity].
  rewrite Hm in Hne. contradiction.
Qed.

Lemma snapshots_before_update_witness :
  exists s, run (fun a _ => a) (fun _ _ => 0) (fun q => q)
              (mkTensor [1%nat] [1 # 2]) [1] 1 2 = Some s
  /\ exists xs, st_samples s = map (clamp (-1) 1) xs
       /\ Traj (fun a _ => a) (fun _ _ => 0) (fun q => q) [1] 1 2 0 (mkTensor [1%nat] [1 # 2]) xs (st_x s)
       /\ (st_samples s <> [] -> hd_error (st_samples s) = Some (clamp (-1) 1 (mkTensor [1%nat] [1 # 2]))).
Proof.
  eexists. split.
  - vm_compute. reflexivity.
  - apply (snapshots_before_update (fun a _ => a) (fun _ _ => 0) (fun q => q)
             (mkTensor [1%nat] [1 # 2]) [1] 1 2).
    vm_compute. reflexivity.
Defined.

Section NoiseExt.

Variable score_nn : Tensor -> Tensor -> Tensor.
Variables noise1 noise2 : nat -> nat -> Q.
Variable qsqrt : Q -> Q.
Hypothesis same_draws : forall k i, noise1 k i = noise2 k i.

Lemma randn_like_ext : forall k x, randn_like noise1 k x = randn_like noise2 k x.
Proof.
  intros k x; unfold randn_like. f_equal. apply map_ext. intro i. apply same_draws.
Qed.

Lemma inner_loop_ext : forall T used step s,
  inner_loop score_nn noise1 qsqrt T used step s
  = inner_loop score_nn noise2 qsqrt T used step s.
Proof.
  induction T as [|T IH]; intros used step s; [reflexivity|].
  simpl. unfold inner_step. rewrite randn_like_ext.
  unfold obind. destruct (langevin_update _ _ _ _); [apply IH | reflexivity].
Qed.

Lemma outer_loop_ext : forall sigmas eps T rest label s,
  outer_loop score_nn noise1 qsqrt sigmas eps T label rest s
  = outer_loop score_nn noise2 qsqrt sigmas eps T label rest s.
Proof.
  intros sigmas eps T; induction rest as [|sigma rest IH]; intros label s;
    [reflexivity|].
  simpl. rewrite inner_loop_ext. unfold obind.
  destruct (inner_loop _ _ _ _ _ _ _); [apply IH | reflexivity].
Qed.

End NoiseExt.

(** C8: the output is determined by the inputs and the values drawn from
    the random source: two runs with the same [x], score function, [sigmas],
    [eps], [T] and the same random draws return the same snapshots. *)
Theorem sampler_deterministic : forall score_nn noise1 noise2 qsqrt x sigmas eps T,
  (forall k i, noise1 k i = noise2 k i) ->
  sample_anneal_langevin score_nn noise1 qsqrt x sigmas eps T
  = sample_anneal_langevin score_nn noise2 qsqrt x sigmas eps T.
Proof.
  intros score_nn noise1 noise2 qsqrt x sigmas eps T H.
  unfold sample_anneal_langevin, run. rewrite (outer_loop_ext score_nn noise1 noise2 qsqrt H).
  reflexivity.
Qed.

Lemma sampler_deterministic_witness :
  (forall k i : nat, (fun k i => inject_Z (Z.of_nat (k * i))) k i
                     = (fun k i => inject_Z (Z.of_nat (i * k))) k i) /\
  sample_anneal_langevin (fun a _ => a) (fun k i => inject_Z (Z.of_nat (k * i))) (fun q => q)
    (mkTensor [2%nat] [1; 0]) [2; 1] 1 2
  = sample_anneal_langevin (fun a _ => a) (fun k i => inject_Z (Z.of_nat (i * k))) (fun q => q)
    (mkTensor [2%nat] [1; 0]) [2; 1] 1 2.
Proof.
  assert (H : forall k i : nat, (fun k i => inject_Z (Z.of_nat (k * i))) k i
                     = (fun k i => inject_Z (Z.of_nat (i * k))) k i)
    by (intros k i; simpl; rewrite Nat.mul_comm; reflexivity).
  split; [exact H|].
  apply sampler_deterministic. exact H.
Defined.

(** The zero tensor of the shape of [a], [torch.zeros_like(a)]. *)
Definition zeros_like (a : Tensor) : Tensor :=
  mkTensor (shape a) (repeat 0 (length (data a))).

Lemma clamp_zeros : forall sh n, clamp (-1) 1 (mkTensor sh (repeat 0 n)) = mkTensor sh (repeat 0 n).
Proof.
  intros sh n; unfold clamp; simpl. f_equal.
  induction n as [|n IH]; simpl; [reflexivity | rewrite IH; reflexivity].
Qed.

(** C9: with a score function returning zeros, an all-zero input, one noise
    level, [T = 1] and a random source returning zeros, the sampler returns
    exactly one snapshot, the clamped input, which is the zero tensor. *)
Theorem zero_score_zero_noise : forall sh n sigma eps qsqrt,
  sample_anneal_langevin (fun a _ => zeros_like a) (fun _ _ => 0) qsqrt
    (mkTensor sh (repeat 0 n)) [sigma] eps 1
  = Some [clamp (-1) 1 (mkTensor sh (repeat 0 n))]
  /\ clamp (-1) 1 (mkTensor sh (repeat 0 n)) = mkTensor sh (repeat 0 n).
Proof.
  intros sh n sigma eps qsqrt. split; [|apply clamp_zeros].
  unfold sample_anneal_langevin, run. simpl.
  unfold inner_step, langevin_update, obind.
  rewrite add_same_shape by reflexivity.
  rewrite add_same_shape by reflexivity.
  reflexivity.
Qed.

(** C4: for a schedule with positive last element, the step sizes of any
    two levels [i] and [j] are in the ratio [(sigma_i / sigma_j)^2], and
    each step size is [eps * (sigma / sigmas[last])^2] (the step constant
    [eps] is positive, as the sampler's contract requires). *)
Theorem step_size_quadratic : forall eps sigmas i j,
  0 < eps -> 0 < last sigmas 0 ->
  (i < length sigmas)%nat -> (j < length sigmas)%nat ->
  step_size eps sigmas (nth i sigmas 0) / step_size eps sigmas (nth j sigmas 0)
    == (nth i sigmas 0 / nth j sigmas 0) ^ 2
  /\ step_size eps sigmas (nth i sigmas 0)
    == eps * (nth i sigmas 0 / nth (length sigmas - 1) sigmas 0) ^ 2.
Proof.
  intros eps sigmas i j Heps Hl _ _.
  split; [|unfold step_size; rewrite last_nth; reflexivity].
  unfold step_size. set (a := nth i sigmas 0). set (b := nth j sigmas 0).
  set (l := last sigmas 0). simpl.
  assert (Hl0 : ~ l == 0) by (intro E; apply (Qlt_not_eq 0 l Hl); symmetry; exact E).
  assert (He0 : ~ eps == 0) by (intro E; apply (Qlt_not_eq 0 eps Heps); symmetry; exact E).
  destruct (Qeq_dec b 0) as [Hb|Hb].
  - rewrite Hb. unfold Qdiv. rewrite Qmult_0_l, Qmult_0_l, Qmult_0_r.
    change (/ 0) with 0. rewrite !Qmult_0_r. reflexivity.
  - field. repeat split; assumption.
Qed.

Lemma step_size_quadratic_witness :
  step_size 2 [4; 2; 1] (nth 0 [4; 2; 1] 0) / step_size 2 [4; 2; 1] (nth 1 [4; 2; 1] 0)
    == (nth 0 [4; 2; 1] 0 / nth 1 [4; 2; 1] 0) ^ 2
  /\ step_size 2 [4; 2; 1] (nth 0 [4; 2; 1] 0)
    == 2 * (nth 0 [4; 2; 1] 0 / nth (length [4; 2; 1] - 1) [4; 2; 1] 0) ^ 2.
Proof.
  apply step_size_quadratic; [reflexivity | reflexivity | simpl; lia | simpl; lia].
Defined.

(** ** The caller's tensor *)
Module StoreFacts.
Import Store.

(** [m] writes only at fresh locations: it never lowers [h_next] and leaves
    every location below the current [h_next] as it was. *)
Definition Frame {A} (m : HM A) : Prop :=
  forall s a s', m s = Some (a, s') ->
  (h_next s <= h_next s')%nat /\ (forall l, (l < h_next s)%nat -> h_heap s' l = h_heap s l).

Create HintDb frame.

Lemma frame_ret : forall A (a : A), Frame (ret a).
Proof. intros A a s b s' H; injection H as _ <-; split; auto. Qed.

Lemma frame_fail : forall A, Frame (@fail A).
Proof. intros A s a s' H; discriminate. Qed.

Lemma frame_bind : forall A B (m : HM A) (f : A -> HM B),
  Frame m -> (forall a, Frame (f a)) -> Frame (bind m f).
Proof.
  intros A B m f Hm Hf s b s' H. unfold bind in H.
  destruct (m s) as [[a s1]|] eqn:E; [|discriminate].
  destruct (Hm _ _ _ E) as [N1 K1]. destruct (Hf a _ _ _ H) as [N2 K2].
  split; [lia|]. intros l Hl. rewrite K2 by lia. apply K1; exact Hl.
Qed.

Lemma frame_alloc : forall t, Frame (alloc t).
Proof.
  intros t s a s' H; injection H as _ <-; simpl. split; [lia|].
  intros l Hl. unfold heap_upd. destruct (Nat.eqb_spec l (h_next s)); [lia | reflexivity].
Qed.

Lemma frame_read : forall l, Frame (read l).
Proof.
  intros l s a s' H; unfold read in H.
  destruct (h_heap s l); [injection H as _ <-; split; auto | discriminate].
Qed.

Lemma frame_get_x : Frame get_x.
Proof. intros s a s' H; injection H as _ <-; split; auto. Qed.

Lemma frame_set_x : forall l, Frame (set_x l).
Proof. intros l s a s' H; injection H as _ <-; split; auto. Qed.

Lemma frame_append_sample : forall l, Frame (append_sample l).
Proof. intros l s a s' H; injection H as _ <-; split; auto. Qed.

Lemma frame_draw : Frame draw.
Proof. intros s a s' H; injection H as _ <-; split; auto. Qed.

Lemma frame_lift : forall o, Frame (lift o).
Proof. intros [t|]; [apply frame_ret | apply frame_fail]. Qed.

#[local] Hint Resolve frame_ret frame_alloc frame_read frame_get_x frame_set_x
  frame_append_sample frame_draw frame_lift : frame.

Ltac frame_solve :=
  repeat (apply frame_bind; [auto with frame | intro]); auto with frame.

Section Frames.

Variable score_nn : Tensor -> Tensor -> Tensor.
Variable noise : nat -> nat -> Q.
Variable qsqrt : Q -> Q.

Lemma frame_inner_step : forall lused step,
  Frame (h_inner_step score_nn noise qsqrt lused step).
Proof. intros; unfold h_inner_step; frame_solve. Qed.

Lemma frame_inner_loop : forall T lused step,
  Frame (h_inner_loop score_nn noise qsqrt T lused step).
Proof.
  induction T as [|T IH]; intros; simpl; [apply frame_ret|].
  apply frame_bind; [apply frame_inner_step | intros; apply IH].
Qed.

Lemma frame_outer_loop : forall sigmas eps T rest label,
  Frame (h_outer_loop score_nn noise qsqrt sigmas eps T label rest).
Proof.
  intros sigmas eps T; induction rest as [|sigma rest IH]; intros; simpl;
    [apply frame_ret|].
  apply frame_bind; [apply frame_get_x | intro lx].
  apply frame_bind; [apply frame_read | intro x].
  apply frame_bind; [apply frame_alloc | intro lused].
  apply frame_bind; [apply frame_inner_loop | intros; apply IH].
Qed.

End Frames.

(** C7 (amended): the sampler does not modify the caller's tensor: the
    Langevin updates build new tensor objects and rebind the local name [x]
    to them, so after the call the caller's object still holds its original
    value. *)
Theorem caller_tensor_unchanged : forall score_nn noise qsqrt h next lx0 x0 sigmas eps T r,
  h lx0 = Some x0 -> (lx0 < next)%nat ->
  h_run score_nn noise qsqrt h next lx0 sigmas eps T = Some r ->
  h_heap (snd r) lx0 = Some x0.
Proof.
  intros score_nn noise qsqrt h next lx0 x0 sigmas eps T [u s'] Hx Hlt H.
  destruct (frame_outer_loop score_nn noise qsqrt sigmas eps T sigmas 0 _ _ _ H)
    as [_ K].
  simpl. rewrite K by exact Hlt. exact Hx.
Qed.

(** The run used below: the caller's tensor [[0.5]] at location [0], one
    level, one iteration, a score equal to the input and unit noise. *)
Definition demo_heap : Heap := heap_upd (fun _ => None) 0%nat (mkTensor [1%nat] [1 # 2]).

Definition demo_run : option (unit * HSt) :=
  h_run (fun a _ => a) (fun _ _ => 1) (fun q => q) demo_heap 1%nat 0%nat [1] 1 1%nat.

Lemma caller_tensor_unchanged_witness :
  demo_heap 0%nat = Some (mkTensor [1%nat] [1 # 2]) /\ (0 < 1)%nat /\
  exists r, demo_run = Some r /\ h_heap (snd r) 0%nat = Some (mkTensor [1%nat] [1 # 2]).
Proof.
  split; [reflexivity|]. split; [lia|].
  eexists; split; [vm_compute; reflexivity|].
  apply (caller_tensor_unchanged (fun a _ => a) (fun _ _ => 1) (fun q => q)
           demo_heap 1%nat 0%nat (mkTensor [1%nat] [1 # 2]) [1] 1 1%nat);
    [reflexivity | lia | vm_compute; reflexivity].
Defined.

(** C7 as stated fails: after the run the local [x] holds the updated
    value [0.5 + 1 * 0.5 + 1 * 2 = 3] in a new object, while the caller's
    object at location [0] still holds [0.5]. *)
Lemma caller_tensor_not_mutated :
  exists s', demo_run = Some (tt, s')
    /\ h_heap s' 0%nat = Some (mkTensor [1%nat] [1 # 2])
    /\ h_x s' <> 0%nat
    /\ h_heap s' (h_x s') <> Some (mkTensor [1%nat] [1 # 2]).
Proof.
  eexists. split; [vm_compute; reflexivity|].
  vm_compute. split; [reflexivity|]. split; discriminate.
Qed.

End StoreFacts.

(** ** The attention layer *)
Module AttentionFacts.
Import Attention.

Lemma chunk_sizes_three : forall a, (0 < a)%nat -> chunk_sizes (3 * a) 3 = [a; a; a].
Proof.
  intros a Ha. unfold chunk_sizes.
  replace (3 * a + 3 - 1)%nat with (2 + a * 3)%nat by lia.
  rewrite Nat.div_add by lia. change (2 / 3)%nat with 0%nat. rewrite Nat.add_0_l.
  destruct (Nat.eqb_spec a 0) as [E|_]; [lia|].
  rewrite Nat.div_mul by lia. rewrite Nat.Div0.mod_mul. reflexivity.
Qed.

(** C10: in the attention layer the per-head attention dimension (the last
    dimension of each of [q], [k], [v]) is [n_channels * 10], and the
    softmax scaling factor is [(n_channels * 10) ^ (-0.5)]. *)
Theorem att_dim_and_scale : forall n_channels n_heads l,
  init n_channels n_heads = Some l ->
  att_dim l = (n_channels * 10)%nat
  /\ qkv_head_dims l = [(n_channels * 10)%nat; (n_channels * 10)%nat; (n_channels * 10)%nat]
  /\ scale l = Rpower (INR (n_channels * 10)) (-0.5)%R.
Proof.
  intros n_channels n_heads l H. unfold init in H.
  destruct (Nat.eqb_spec (n_channels * 10) 0) as [_|Hn]; [discriminate|].
  injection H as <-. unfold qkv_head_dims, proj_head_dim; simpl att_dim.
  split; [reflexivity|]. split; [|reflexivity].
  apply chunk_sizes_three. lia.
Qed.

Lemma att_dim_and_scale_witness :
  exists l, init 64 1 = Some l
    /\ att_dim l = 640%nat
    /\ qkv_head_dims l = [640%nat; 640%nat; 640%nat]
    /\ scale l = Rpower (INR (64 * 10)) (-0.5)%R.
Proof.
  eexists; split; [reflexivity|].
  apply (att_dim_and_scale 64 1). reflexivity.
Defined.

End AttentionFacts.

(** * Further properties of the layers and of the validation loop *)

Module ShapeFacts.
Import TorchShape.

Lemma bcast_rev_same : forall l, bcast_rev l l = Some l.
Proof.
  induction l as [|d l IH]; [reflexivity|].
  simpl. rewrite IH. simpl. rewrite Nat.eqb_refl. reflexivity.
Qed.

Lemma broadcast_same : forall l, broadcast l l = Some l.
Proof.
  intro l; unfold broadcast. rewrite bcast_rev_same. simpl. rewrite rev_involutive.
  reflexivity.
Qed.

Lemma list_nat_eqb_refl : forall l, list_nat_eqb l l = true.
Proof. intro l; apply list_nat_eqb_eq; reflexivity. Qed.



End ShapeFacts.

Module UnetFacts.
Import TorchShape Unet ShapeFacts.





Lemma conv_size_down : forall n, (1 <= n)%nat -> conv_size 3 2 1 n = Some ((n + 1) / 2)%nat.
Proof.
  intros n Hn; unfold conv_size.
  destruct (Nat.ltb_spec (n + 2 * 1) 3); [lia|].
  f_equal. replace (n + 1)%nat with ((n + 2 * 1 - 3) + 1 * 2)%nat by lia.
  rewrite Nat.div_add by lia. reflexivity.
Qed.

Lemma convT_size_up : forall n, (1 <= n)%nat -> convT_size 4 2 1 n = Some (2 * n)%nat.
Proof.
  intros n Hn; unfold convT_size.
  destruct (Z.leb_spec ((Z.of_nat n - 1) * Z.of_nat 2 - 2 * Z.of_nat 1 + Z.of_nat 4) 0); [lia|].
  f_equal. lia.
Qed.

(** [DownSample] maps [[b; out; W; H]] to [[b; out; ceil(W/2); ceil(H/2)]]
    and [UpSample] maps [[b; out; W; H]] to [[b; out'; 2W; 2H]] with
    [out' = out // 2] when [in < out] and [out' = out] otherwise; both fail
    on another channel count. *)
Theorem sample_layer_shapes : forall cin cout b c w h,
  (1 <= w)%nat -> (1 <= h)%nat ->
  downsample_forward cin cout [b; c; w; h]
    = (if Nat.eqb c cout then Some [b; cout; ((w + 1) / 2)%nat; ((h + 1) / 2)%nat] else None)
  /\ upsample_forward cin cout [b; c; w; h]
    = (if Nat.eqb c cout then Some [b; upsample_out cin cout; (2 * w)%nat; (2 * h)%nat]
       else None).
Proof.
  intros cin cout b c w h Hw Hh. unfold downsample_forward, upsample_forward,
    conv2d, conv_transpose2d.
  destruct (Nat.eqb c cout); [|split; reflexivity].
  rewrite !conv_size_down, !convT_size_up by assumption. split; reflexivity.
Qed.

Lemma sample_layer_shapes_witness :
  (1 <= 7)%nat /\ (1 <= 8)%nat /\
  downsample_forward 32 64 [2%nat; 64%nat; 7%nat; 8%nat]
    = (if Nat.eqb 64 64 then Some [2%nat; 64%nat; ((7 + 1) / 2)%nat; ((8 + 1) / 2)%nat] else None)
  /\ upsample_forward 32 64 [2%nat; 64%nat; 7%nat; 8%nat]
    = (if Nat.eqb 64 64 then Some [2%nat; upsample_out 32 64; (2 * 7)%nat; (2 * 8)%nat]
       else None).
Proof.
  split; [lia|]. split; [lia|].
  apply (sample_layer_shapes 32 64 2 64 7 8); lia.
Defined.

(** Down-sampling and then up-sampling restores the spatial size of an input
    of even width and height, and adds one to an odd one. *)
Theorem down_up_spatial : forall cin cout b w h,
  (1 <= w)%nat -> (1 <= h)%nat ->
  obind (downsample_forward cin cout [b; cout; w; h]) (upsample_forward cin cout)
  = Some [b; upsample_out cin cout; (w + w mod 2)%nat; (h + h mod 2)%nat].
Proof.
  intros cin cout b w h Hw Hh.
  destruct (sample_layer_shapes cin cout b cout w h Hw Hh) as [Hd _].
  rewrite Hd, Nat.eqb_refl. unfold obind; cbv beta iota.
  assert (E : forall n, (1 <= n)%nat -> (2 * ((n + 1) / 2) = n + n mod 2)%nat).
  { intros n Hn. pose proof (Nat.div_mod n 2) as D. pose proof (Nat.mod_upper_bound n 2) as U.
    destruct (Nat.eqb_spec (n mod 2) 0) as [Z|Z].
    - replace (n + 1)%nat with (1 + (n / 2) * 2)%nat by lia.
      rewrite Nat.div_add by lia. change (1 / 2)%nat with 0%nat. lia.
    - replace (n + 1)%nat with (0 + (n / 2 + 1) * 2)%nat by lia.
      rewrite Nat.div_add by lia. change (0 / 2)%nat with 0%nat. lia. }
  destruct (sample_layer_shapes cin cout b cout ((w + 1) / 2) ((h + 1) / 2)) as [_ Hu].
  - apply Nat.div_le_lower_bound; lia.
  - apply Nat.div_le_lower_bound; lia.
  - rewrite Hu, Nat.eqb_refl, !E by assumption. reflexivity.
Qed.

Lemma down_up_spatial_witness :
  (1 <= 8)%nat /\ (1 <= 5)%nat /\
  obind (downsample_forward 32 64 [2%nat; 64%nat; 8%nat; 5%nat]) (upsample_forward 32 64)
  = Some [2%nat; upsample_out 32 64; (8 + 8 mod 2)%nat; (5 + 5 mod 2)%nat].
Proof.
  split; [lia|]. split; [lia|]. apply down_up_spatial; lia.
Defined.

(** The [(in_channels, out_channels)] of the residual blocks of a layer
    list, and its attention and sampling layers. *)
Definition res_io (l : list Layer) : list (nat * nat) :=
  flat_map (fun y => match y with LRes r => [(rb_in r, rb_out r)] | _ => [] end) l.

Definition is_att (y : Layer) : bool := match y with LAtt _ => true | _ => false end.

Definition sample_layers (l : list Layer) : list Layer :=
  filter (fun y => match y with LSample _ _ _ => true | _ => false end) l.

Lemma make_res_layers_shape : forall num_res m i cin cout ne is_attn l,
  (i + m = num_res)%nat ->
  make_res_layers num_res (seq i m) cin cout ne is_attn = Some l ->
  res_io l = (match m with O => [] | S m' => (cin, cout) :: repeat (cout, cout) m' end)
  /\ length (filter is_att l) = (if is_attn then m - 1 else 0)%nat
  /\ sample_layers l = []
  /\ forallb (fun y => negb (is_down y)) l = true.
Proof.
  intros num_res m; induction m as [|m IH]; intros i cin cout ne is_attn l Hi H.
  - simpl in H. injection H as <-. destruct is_attn; repeat split.
  - simpl in H. unfold obind in H.
    destruct (resblock_init cin cout ne) as [r|] eqn:Er; [|discriminate].
    destruct (if is_attn && negb (Nat.eqb i (num_res - 1)) then _ else _)
      as [att|] eqn:Ea; [|discriminate].
    destruct (make_res_layers num_res (seq (S i) m) cout cout ne is_attn)
      as [tl|] eqn:Et; [|discriminate].
    injection H as <-.
    destruct (IH (S i) cout cout ne is_attn tl) as [H1 [H2 [H3 H4]]]; [lia | exact Et|].
    unfold resblock_init in Er.
    destruct (group_norm_ok n_groups cin && group_norm_ok n_groups cout); [|discriminate].
    injection Er as <-.
    assert (Hatt : filter is_att att = (if is_attn && negb (Nat.eqb i (num_res - 1)) then att else [])
                   /\ res_io att = [] /\ sample_layers att = []
                   /\ forallb (fun y => negb (is_down y)) att = true
                   /\ length att = (if is_attn && negb (Nat.eqb i (num_res - 1)) then 1 else 0)%nat).
    { destruct (is_attn && negb (Nat.eqb i (num_res - 1))).
      - unfold obind in Ea. destruct (Attention.init cout 1); [|discriminate].
        injection Ea as <-. repeat split.
      - injection Ea as <-. repeat split. }
    destruct Hatt as [A1 [A2 [A3 [A4 A5]]]].
    unfold res_io in *; unfold sample_layers in *.
    simpl. rewrite flat_map_app, A2, H1. simpl.
    split; [destruct m; reflexivity|].
    rewrite filter_app, length_app, H2, A1. rewrite filter_app, A3, H3.
    rewrite forallb_app, A4, H4. split; [|split; reflexivity].
    destruct is_attn; simpl; [|reflexivity].
    destruct (Nat.eqb_spec i (num_res - 1)) as [E|E]; simpl.
    + assert (m = 0)%nat by lia. subst m. reflexivity.
    + simpl in A5. rewrite A5. destruct m; [lia|]. lia.
Qed.

Lemma make_res_layers_kinds : forall num_res m i cin cout ne is_attn l,
  (i + m = num_res)%nat ->
  make_res_layers num_res (seq i m) cin cout ne is_attn = Some l ->
  map layer_kind l = (match m with
                      | O => []
                      | S m' => if is_attn then concat (repeat [KRes; KAtt] m') ++ [KRes]
                                else repeat KRes (S m')
                      end).
Proof.
  intros num_res m; induction m as [|m IH]; intros i cin cout ne is_attn l Hi H.
  - simpl in H. injection H as <-. reflexivity.
  - simpl in H. unfold obind in H.
    destruct (resblock_init cin cout ne) as [r|]; [|discriminate].
    destruct (if is_attn && negb (Nat.eqb i (num_res - 1)) then _ else _)
      as [att|] eqn:Ea; [|discriminate].
    destruct (make_res_layers num_res (seq (S i) m) cout cout ne is_attn)
      as [tl|] eqn:Et; [|discriminate].
    injection H as <-.
    pose proof (IH (S i) cout cout ne is_attn tl ltac:(lia) Et) as Htl.
    simpl. rewrite map_app, Htl.
    destruct is_attn; simpl in Ea.
    + destruct (Nat.eqb_spec i (num_res - 1)) as [E|E]; simpl in Ea.
      * injection Ea as <-. assert (m = 0)%nat by lia. subst m. reflexivity.
      * destruct (Attention.init cout 1); [|discriminate]. injection Ea as <-.
        destruct m as [|m]; [lia|]. reflexivity.
    + injection Ea as <-. destruct m; reflexivity.
Qed.

(** [UnetBlock._make_block] builds [num_res] residual blocks, the first from
    [in_channels] to [out_channels] and the others from [out_channels] to
    [out_channels]; with [is_attn] an attention layer after every residual
    block but the last ([num_res - 1] of them), none otherwise; and the
    sampling layer, when given, as the last and only sampling layer. *)
Theorem make_block_structure : forall cin cout ne num_res sample is_attn l,
  make_block cin cout ne num_res sample is_attn = Some l ->
  res_io l = (match num_res with O => [] | S m => (cin, cout) :: repeat (cout, cout) m end)
  /\ length (filter is_att l) = (if is_attn then num_res - 1 else 0)%nat
  /\ sample_layers l = (match sample with Some k => [LSample k cin cout] | None => [] end)
  /\ (forall k, sample = Some k -> last l (LRes (mkResBlock 0 0 0 true)) = LSample k cin cout)
  /\ map layer_kind l =
     (match num_res with
      | O => []
      | S m => if is_attn then concat (repeat [KRes; KAtt] m) ++ [KRes] else repeat KRes (S m)
      end) ++ (match sample with Some _ => [KSample] | None => [] end).
Proof.
  intros cin cout ne num_res sample is_attn l H.
  assert (HK : forall body, make_res_layers num_res (seq 0 num_res) cin cout ne is_attn = Some body ->
            map layer_kind (body ++ match sample with Some k => [LSample k cin cout] | None => [] end) =
            (match num_res with
             | O => []
             | S m => if is_attn then concat (repeat [KRes; KAtt] m) ++ [KRes] else repeat KRes (S m)
             end) ++ (match sample with Some _ => [KSample] | None => [] end)).
  { intros body Hb. rewrite map_app, (make_res_layers_kinds num_res num_res 0 cin cout ne is_attn body)
      by (exact Hb || lia). destruct sample; reflexivity. }
  unfold make_block, obind in H.
  destruct (make_res_layers num_res (seq 0 num_res) cin cout ne is_attn) as [body|] eqn:E;
    [|discriminate].
  injection H as <-. pose proof (HK body eq_refl) as H4. clear HK.
  destruct (make_res_layers_shape num_res num_res 0 cin cout ne is_attn body)
    as [H1 [H2 [H3 _]]]; [lia | exact E|].
  unfold res_io, sample_layers in *.
  rewrite flat_map_app, H1, !filter_app, length_app, H2, H3.
  destruct sample as [k|]; simpl; rewrite ?app_nil_r.
  - split; [reflexivity|]. split; [simpl; lia|]. split; [reflexivity|]. split; [|exact H4].
    intros k' Hk. injection Hk as <-. apply last_last.
  - split; [reflexivity|]. split; [lia|]. split; [reflexivity|]. split; [discriminate|].
    rewrite !app_nil_r in H4. exact H4.
Qed.

Lemma make_block_structure_witness :
  exists l, make_block 32 64 16 3 (Some Down) true = Some l /\
  res_io l = [(32, 64); (64, 64); (64, 64)]%nat
  /\ length (filter is_att l) = (if true then 3 - 1 else 0)%nat
  /\ sample_layers l = [LSample Down 32 64]
  /\ (forall k, Some Down = Some k -> last l (LRes (mkResBlock 0 0 0 true)) = LSample k 32 64)
  /\ map layer_kind l = [KRes; KAtt; KRes; KAtt; KRes; KSample].
Proof.
  eexists; split; [vm_compute; reflexivity|].
  apply (make_block_structure 32 64 16 3 (Some Down) true). vm_compute. reflexivity.
Defined.

Section ForwardFacts.
Variable Tn : Type.
Variable apply : Layer -> Tn -> Tn -> Tn.

Lemma unet_forward_app : forall l1 l2 x t,
  forallb (fun y => negb (is_down y)) l1 = true ->
  unet_forward Tn apply (l1 ++ l2) x t = unet_forward Tn apply l2 (run_layers Tn apply l1 x t) t.
Proof.
  induction l1 as [|y l1 IH]; intros l2 x t H; [reflexivity|].
  simpl in H |- *. apply andb_true_iff in H as [Hy H].
  destruct (is_down y); [discriminate|]. apply IH; exact H.
Qed.

(** [UnetBlock.forward] on a block built by [_make_block]: with a
    [DownSample] it returns the down-sampled result together with its
    input, the output of the residual and attention layers (the skip
    connection); otherwise it returns the output of all layers and [None]. *)
Theorem unet_block_forward : forall cin cout ne num_res sample is_attn l x t,
  make_block cin cout ne num_res sample is_attn = Some l ->
  unet_forward Tn apply l x t =
  match sample with
  | Some Down =>
      (apply (LSample Down cin cout) (run_layers Tn apply (removelast l) x t) t,
       Some (run_layers Tn apply (removelast l) x t))
  | _ => (run_layers Tn apply l x t, None)
  end.
Proof.
  intros cin cout ne num_res sample is_attn l x t H.
  unfold make_block, obind in H.
  destruct (make_res_layers num_res (seq 0 num_res) cin cout ne is_attn) as [body|] eqn:E;
    [|discriminate].
  injection H as <-.
  destruct (make_res_layers_shape num_res num_res 0 cin cout ne is_attn body)
    as [_ [_ [_ Hd]]]; [lia | exact E|].
  rewrite unet_forward_app by exact Hd.
  destruct sample as [[|]|]; simpl.
  - rewrite removelast_last. reflexivity.
  - assert (R : forall l2 y x, run_layers Tn apply (l2 ++ [y]) x t
                = apply y (run_layers Tn apply l2 x t) t).
    { induction l2 as [|z l2 IH]; intros y x'; [reflexivity|]. simpl. apply IH. }
    rewrite R. reflexivity.
  - rewrite app_nil_r. reflexivity.
Qed.

End ForwardFacts.

Lemma unet_block_forward_witness :
  exists l, make_block 32 64 16 2 (Some Down) false = Some l /\
  unet_forward nat (fun y x _ => match y with LRes _ => (x + 1)%nat | LAtt _ => (x * 2)%nat
                                 | LSample _ _ _ => (x * 10)%nat end) l 5%nat 0%nat
  = (70%nat, Some 7%nat).
Proof.
  eexists; split; [vm_compute; reflexivity|].
  rewrite (unet_block_forward nat _ 32 64 16 2 (Some Down) false) by (vm_compute; reflexivity).
  vm_compute. reflexivity.
Defined.

End UnetFacts.

Module AttentionShapeFacts.
Import TorchShape Attention AttentionShape ShapeFacts.

Lemma infer_size_one_hole : forall x spec q,
  length (filter (fun o => match o with None => true | _ => false end) spec) = 1%nat ->
  prod (map (fun o => match o with Some d => d | None => 1%nat end) spec) <> 0%nat ->
  prod x = (q * prod (map (fun o => match o with Some d => d | None => 1%nat end) spec))%nat ->
  infer_size x spec = Some (map (fun o => match o with Some d => d | None => q end) spec).
Proof.
  intros x spec q H1 H2 H3. unfold infer_size. cbv zeta. rewrite H1.
  destruct (Nat.eqb_spec (prod (map (fun o => match o with Some d => d | None => 1%nat end) spec)) 0)
    as [E|_]; [contradiction|].
  rewrite H3, Nat.Div0.mod_mul, Nat.div_mul by exact H2. reflexivity.
Qed.

Lemma infer_size_no_hole : forall x spec,
  length (filter (fun o => match o with None => true | _ => false end) spec) = 0%nat ->
  prod (map (fun o => match o with Some d => d | None => 1%nat end) spec) = prod x ->
  infer_size x spec = Some (map (fun o => match o with Some d => d | None => 1%nat end) spec).
Proof.
  intros x spec H1 H2. unfold infer_size. cbv zeta. rewrite H1, H2, Nat.eqb_refl. reflexivity.
Qed.

Lemma prod_snoc : forall l d, prod (l ++ [d]) = (prod l * d)%nat.
Proof. induction l as [|a l IH]; intro d; simpl; [lia | rewrite IH; ring]. Qed.

Lemma prod_rev : forall l, prod (rev l) = prod l.
Proof. induction l as [|a l IH]; simpl; [reflexivity | rewrite prod_snoc, IH; ring]. Qed.

Lemma prod_pos : forall l, (forall d, In d l -> 0 < d)%nat -> (0 < prod l)%nat.
Proof.
  induction l as [|a l IH]; intro H; simpl; [lia|].
  pose proof (H a (or_introl eq_refl)). pose proof (IH (fun d Hd => H d (or_intror Hd))). nia.
Qed.

Lemma prod_nonzero_in : forall l d, prod l <> 0%nat -> In d l -> (0 < d)%nat.
Proof.
  induction l as [|a l IH]; intros d H Hd; [destruct Hd|]. simpl in H, Hd.
  destruct Hd as [<-|Hd]; [lia|]. apply IH; [lia | exact Hd].
Qed.

Lemma length_contig : forall l, length (contig l) = length l.
Proof. induction l; simpl; congruence. Qed.

Lemma contig_snoc : forall l d, contig (l ++ [d]) = map (fun p => (p * d)%nat) (contig l) ++ [1%nat].
Proof.
  induction l as [|a l IH]; intro d; [reflexivity|].
  simpl. rewrite IH, prod_snoc. reflexivity.
Qed.

Lemma last_contig : forall l, l <> [] -> last (contig l) 0%nat = 1%nat.
Proof.
  intros l H. destruct (exists_last H) as [l' [a ->]].
  rewrite contig_snoc, last_last. reflexivity.
Qed.

Lemma combine_app_eq : forall (A B : Type) (l1 l3 : list A) (l2 l4 : list B),
  length l1 = length l2 -> combine (l1 ++ l3) (l2 ++ l4) = combine l1 l2 ++ combine l3 l4.
Proof.
  intros A B l1; induction l1 as [|a l1 IH]; intros l3 l2 l4 H; destruct l2 as [|b l2];
    simpl in *; try discriminate; [reflexivity|].
  rewrite IH by lia. reflexivity.
Qed.

(** The reversed (size, stride) pairs of a contiguous tensor, its strides
    scaled by [f]. *)
Lemma rev_combine_contig : forall l a (f : nat -> nat),
  rev (combine (l ++ [a]) (map f (contig (l ++ [a])))) =
  (a, f 1%nat) :: rev (combine l (map (fun p => f (p * a)%nat) (contig l))).
Proof.
  intros l a f. rewrite contig_snoc, map_app, map_map.
  rewrite combine_app_eq by (rewrite length_map, length_contig; reflexivity).
  rewrite rev_app_distr. reflexivity.
Qed.

Lemma cs_fill_full : forall v vn cb tn acc,
  (0 < vn)%nat -> (forall d, In d v -> 0 < d)%nat -> (vn * prod v = tn)%nat ->
  cs_fill v vn cb tn acc = ([], tn, map (fun p => (vn * p * cb)%nat) (contig (rev v)) ++ acc).
Proof.
  induction v as [|d v IH]; intros vn cb tn acc Hvn Hpos Hp.
  - simpl in *. rewrite Nat.mul_1_r in Hp. subst. reflexivity.
  - cbn [cs_fill].
    assert (Hd : (0 < d)%nat) by (apply Hpos; left; reflexivity).
    assert (Hv : (0 < prod v)%nat) by (apply prod_pos; intros; apply Hpos; right; assumption).
    replace (Nat.ltb vn tn || Nat.eqb d 1) with true.
    2:{ simpl in Hp. destruct (Nat.eqb_spec d 1) as [|Hne]; [rewrite orb_true_r; reflexivity|].
        rewrite orb_false_r. symmetry. apply Nat.ltb_lt. subst tn. apply Nat.lt_le_trans with (vn * 2)%nat; [lia|]. apply Nat.mul_le_mono_l. nia. }
    rewrite IH; [| nia | intros; apply Hpos; right; assumption | simpl in Hp; rewrite <- Hp; ring].
    replace (rev (d :: v)) with (rev v ++ [d]) by reflexivity.
    rewrite contig_snoc, map_app, map_map, <- app_assoc. cbn [map app].
    f_equal. f_equal; [apply map_ext; intro; ring | f_equal; ring].
Qed.

Lemma cs_loop_merge : forall sz st old cb tnum vn view acc,
  match old with [] => False | (_, pst) :: _ => pst = (tnum * sz * cb)%nat end ->
  cs_loop ((sz, st) :: old) cb tnum vn view acc = cs_loop old cb (tnum * sz) vn view acc.
Proof.
  intros sz st old cb tnum vn view acc H. simpl.
  destruct old as [|[psz pst] r]; [contradiction|]. subst pst.
  rewrite Nat.eqb_refl, andb_false_r. reflexivity.
Qed.

Lemma cs_loop_contig : forall old tnum vn view acc, old <> [] ->
  cs_loop (rev (combine old (map (fun p => (tnum * p)%nat) (contig old)))) 1 tnum vn view acc =
  match cs_fill view vn 1 (tnum * prod old) acc with
  | (view', vn', acc') =>
      if negb (Nat.eqb vn' (tnum * prod old)) then None
      else match view' with [] => Some acc' | _ => None end
  end.
Proof.
  intro old. induction old as [|s old IH] using rev_ind; intros tnum vn view acc Hne;
    [contradiction|].
  rewrite rev_combine_contig, prod_snoc.
  destruct (list_eq_dec Nat.eq_dec old []) as [->|Hne'].
  - simpl. rewrite Nat.add_0_r. reflexivity.
  - destruct (exists_last Hne') as [o' [s' Ho]].
    rewrite cs_loop_merge.
    2:{ rewrite Ho, rev_combine_contig. ring. }
    replace (map (fun p => (tnum * (p * s))%nat) (contig old))
      with (map (fun p => (tnum * s * p)%nat) (contig old)) by (apply map_ext; intro; ring).
    rewrite IH by exact Hne'.
    replace (tnum * s * prod old)%nat with (tnum * (prod old * s))%nat by ring. reflexivity.
Qed.

Lemma map_mul1 : forall l, map (fun p => (1 * p)%nat) l = l.
Proof. induction l as [|a l IH]; simpl; [reflexivity | f_equal; [lia | exact IH]]. Qed.

(** A [view] of a contiguous tensor with elements always succeeds and is
    contiguous. *)
Lemma compute_stride_contig : forall s s',
  s <> [] -> prod s <> 0%nat -> prod s' = prod s ->
  compute_stride s (contig s) s' = Some (contig s').
Proof.
  intros s s' Hne Hp Hs.
  replace (compute_stride s (contig s) s') with
    (if Nat.eqb (prod s) 0 then
       if list_nat_eqb s s' then Some (contig s) else Some (zero_numel_strides s')
     else cs_loop (rev (combine s (contig s))) (last (contig s) 0%nat) 1 1 (rev s') [])
    by (destruct s; [contradiction | reflexivity]).
  destruct (Nat.eqb_spec (prod s) 0) as [|_]; [contradiction|].
  rewrite last_contig by exact Hne. rewrite <- (map_mul1 (contig s)).
  rewrite cs_loop_contig by exact Hne.
  rewrite cs_fill_full.
  - rewrite Nat.eqb_refl. simpl. rewrite rev_involutive, app_nil_r.
    f_equal. rewrite <- (map_mul1 (contig s')) at 2. apply map_ext. intro; ring.
  - lia.
  - intros d Hd. apply in_rev in Hd. apply (prod_nonzero_in s'); [lia | exact Hd].
  - rewrite prod_rev. lia.
Qed.

Lemma infer_size_prod : forall x spec s, infer_size x spec = Some s -> prod s = prod x.
Proof.
  intros x spec s H.
  assert (G : forall q, prod (map (fun o => match o with Some d => d | None => q end) spec)
     = (q ^ length (filter (fun o => match o with None => true | _ => false end) spec)
        * prod (map (fun o => match o with Some d => d | None => 1%nat end) spec))%nat).
  { intro q. clear H. induction spec as [|[d|] spec IH]; simpl; [reflexivity | rewrite IH; ring | rewrite IH; ring]. }
  unfold infer_size in H. cbv zeta in H.
  destruct (length (filter _ spec)) as [|[|k]] eqn:Eh; [| |discriminate].
  - destruct (Nat.eqb_spec (prod (map (fun o => match o with Some d => d | None => 1%nat end) spec)) (prod x))
      as [E|]; [|discriminate].
    injection H as <-. exact E.
  - destruct (Nat.eqb _ 0) eqn:E0; [discriminate|].
    destruct (Nat.eqb_spec (prod x mod prod (map (fun o => match o with Some d => d | None => 1%nat end) spec)) 0)
      as [Em|]; [|discriminate].
    injection H as <-. rewrite G. apply Nat.eqb_neq in E0.
    pose proof (Nat.div_mod_eq (prod x) (prod (map (fun o => match o with Some d => d | None => 1%nat end) spec))).
    simpl. lia.
Qed.

Lemma view_contiguous : forall s spec s',
  s <> [] -> prod s <> 0%nat -> infer_size s spec = Some s' ->
  view (contiguous s) spec = Some (contiguous s').
Proof.
  intros s spec s' Hne Hp H. unfold view, contiguous. cbn [sizes strides].
  rewrite H. cbn [obind]. rewrite compute_stride_contig; [reflexivity | exact Hne | exact Hp |].
  apply (infer_size_prod _ _ _ H).
Qed.

Local Open Scope nat_scope.

Ltac cs_simpl := cbn -[Nat.ltb Nat.mul Nat.add] in *;
  rewrite ?orb_true_r, ?orb_false_r, ?andb_false_r, ?andb_true_r in *.
Ltac cs_crush :=
  repeat (cs_simpl; match goal with
  | |- context [Nat.eqb ?x ?y] => destruct (Nat.eqb_spec x y)
  | |- context [Nat.ltb ?x ?y] => destruct (Nat.ltb_spec x y)
  end); cs_simpl; try reflexivity; try discriminate; try (exfalso; nia).

Ltac nonzero_prod := cbn; repeat (apply Nat.neq_mul_0; split); lia.

(** Dropping a dimension of size one is always a valid [view], whatever
    the strides. *)
Lemma view_drop_unit : forall b i d st, 0 < b -> 0 < i -> 0 < d -> length st = 4 ->
  compute_stride [b; i; 1; d] st [b; i; d] <> None.
Proof.
  intros b i d st Hb Hi Hd Hst.
  destruct st as [|s0 [|s1 [|s2 [|s3 [|]]]]]; try discriminate.
  assert (H1 : d <= d * i) by nia. assert (H2 : i <> 1 -> 2 * d <= d * i) by nia.
  assert (H3 : d * i <= d * i * b) by nia. assert (H4 : b <> 1 -> 2 * (d * i) <= d * i * b) by nia.
  unfold compute_stride. cs_crush. all: lia.
Qed.

(** Merging the heads dimension [h] with [d] is not a valid [view] of the
    result of the second [einsum] once there are two heads or more. *)
Lemma view_split_heads_fails : forall b i h d, 0 < b -> 2 <= i -> 2 <= h -> 2 <= d ->
  compute_stride [b; i; h; d] [h * i * d; d; i * d; 1] [b; i; h * d] = None.
Proof.
  intros b i h d Hb Hi Hh Hd.
  assert (H1 : d < h * d) by nia. assert (H2 : d < i * d) by nia.
  unfold compute_stride. cs_crush. all: lia.
Qed.

(** [AttLayer.forward] on a contiguous input with [c = n_channels], up to
    the [view] of the result of the second [einsum]. *)
Lemma att_forward_unfold : forall sv n nh l b w h, init n nh = Some l ->
  0 < nh -> 0 < b -> 0 < w -> 0 < h ->
  att_forward sv l (contiguous [b; n; w; h]) =
  (o1 <- view (mkLayout [b; w * h; nh; att_dim l] (sv [b; w * h; nh; att_dim l]))
               [Some b; None; Some (nh * att_dim l)] ;;
   out <- linear (out_in l) (out_out l) (sizes o1) ;;
   s <- broadcast out [b; w * h; n] ;;
   if list_nat_eqb s out then
     (o2 <- view (contiguous out) [Some b; Some w; Some h; Some n] ;; permute [0; 3; 1; 2] o2)
   else None).
Proof.
  intros sv n nh l b w h Hl Hnh Hb Hw Hh.
  assert (Ha : 0 < att_dim l /\ n_heads l = nh /\ proj_in l = n /\ proj_out l = 3 * nh * att_dim l)
    by (unfold init in Hl; destruct (Nat.eqb_spec (n * 10) 0); [discriminate|];
        injection Hl as <-; cbn; repeat split; lia).
  destruct Ha as (Ha & Enh & Ein & Eout).
  assert (Hn : 0 < n) by (unfold init in Hl; destruct (Nat.eqb_spec (n * 10) 0); [discriminate | lia]).
  unfold att_forward. cbn [sizes contiguous]. rewrite Enh, Ein, Eout. set (a := att_dim l).
  rewrite (view_contiguous [b; n; w; h] [Some b; Some n; None] [b; n; w * h]);
    [| discriminate | nonzero_prod | rewrite (infer_size_one_hole _ _ (w * h)); [reflexivity | reflexivity | nonzero_prod | cbn; ring]].
  cbn [obind]. unfold permute. cbn. unfold linear at 1. cbn. rewrite Nat.eqb_refl. cbn.
  rewrite (view_contiguous _ _ [b; w * h; nh; 3 * a]);
    [| discriminate | nonzero_prod | rewrite (infer_size_one_hole _ _ (w * h)); [reflexivity | reflexivity | nonzero_prod | cbn; ring]].
  cbn [obind sizes contiguous]. unfold chunk3_last. cbn [rev app]. rewrite AttentionFacts.chunk_sizes_three by exact Ha.
  cbn. unfold einsum_qk, einsum_sv. rewrite !Nat.eqb_refl. cbn. rewrite !Nat.eqb_refl. reflexivity.
Qed.


Lemma init_fields : forall n nh l, init n nh = Some l ->
  0 < n /\ att_dim l = n * 10 /\ n_heads l = nh /\ proj_in l = n
  /\ proj_out l = 3 * nh * att_dim l /\ out_in l = nh * att_dim l /\ out_out l = n.
Proof.
  intros n nh l Hl. unfold init in Hl.
  destruct (Nat.eqb_spec (n * 10) 0); [discriminate|].
  injection Hl as <-. cbn. repeat split; lia.
Qed.

(** [AttLayer(n_channels)] with its default single head: [forward] maps a
    contiguous [[b; c; W; H]] input to a [[b; c; W; H]] output when
    [c = n_channels], whatever the strides of the [einsum] result, and
    fails otherwise; the output is the permuted view of a contiguous
    [[b; W; H; c]] tensor. *)
Theorem att_forward_one_head : forall sv n l b c w h,
  init n 1 = Some l -> (forall s, length (sv s) = length s) ->
  0 < b -> 0 < w -> 0 < h ->
  att_forward sv l (contiguous [b; c; w; h]) =
  if Nat.eqb c n then Some (mkLayout [b; c; w; h] [w * h * c; 1; h * c; c]) else None.
Proof.
  intros sv n l b c w h Hl Hsv Hb Hw Hh.
  destruct (init_fields n 1 l Hl) as (Hn & Ea & Enh & Ein & Eout & Eoi & Eoo).
  destruct (Nat.eqb_spec c n) as [<-|Hc].
  - rewrite (att_forward_unfold sv c 1 l b w h Hl) by lia.
    unfold view at 1. cbn [sizes strides].
    rewrite (infer_size_one_hole _ _ (w * h)); [| reflexivity | nonzero_prod | cbn; ring].
    cbn [map obind]. rewrite Nat.mul_1_l.
    destruct (compute_stride [b; w * h; 1; att_dim l] (sv [b; w * h; 1; att_dim l]) [b; w * h; att_dim l])
      as [st|] eqn:E.
    2:{ exfalso. revert E. apply view_drop_unit; [lia | nia | lia | apply Hsv]. }
    cbn [obind sizes]. unfold linear. cbn. rewrite Eoi, Nat.mul_1_l, Nat.eqb_refl. cbn.
    rewrite Eoo, broadcast_same. cbn [obind]. rewrite list_nat_eqb_refl.
    rewrite (view_contiguous _ _ [b; w; h; c]);
      [| discriminate | nonzero_prod | rewrite infer_size_no_hole; [reflexivity | reflexivity | cbn; ring]].
    cbn. do 2 f_equal. rewrite !Nat.mul_1_r. f_equal. ring.
  - destruct c as [|c'].
    { unfold att_forward. cbn [sizes contiguous]. unfold view, infer_size. cbn.
      rewrite Nat.mul_0_r. reflexivity. }
    unfold att_forward. cbn [sizes contiguous].
    rewrite (view_contiguous [b; S c'; w; h] [Some b; Some (S c'); None] [b; S c'; w * h]);
      [| discriminate | nonzero_prod | rewrite (infer_size_one_hole _ _ (w * h)); [reflexivity | reflexivity | nonzero_prod | cbn; ring]].
    cbn [obind]. unfold permute. cbn. unfold linear at 1. cbn. rewrite Ein.
    destruct n as [|n']; [lia|].
    rewrite (proj2 (Nat.eqb_neq c' n')) by lia. reflexivity.
Qed.

Lemma att_forward_other_channels : forall sv n nh l b c w h,
  init n nh = Some l -> c <> n -> 0 < b -> 0 < w -> 0 < h ->
  att_forward sv l (contiguous [b; c; w; h]) = None.
Proof.
  intros sv n nh l b c w h Hl Hc Hb Hw Hh.
  destruct (init_fields n nh l Hl) as (Hn & _ & _ & Ein & _).
  destruct c as [|c'].
  { unfold att_forward. cbn [sizes contiguous]. unfold view, infer_size. cbn.
    rewrite Nat.mul_0_r. reflexivity. }
  unfold att_forward. cbn [sizes contiguous].
  rewrite (view_contiguous [b; S c'; w; h] [Some b; Some (S c'); None] [b; S c'; w * h]);
    [| discriminate | nonzero_prod | rewrite (infer_size_one_hole _ _ (w * h)); [reflexivity | reflexivity | nonzero_prod | cbn; ring]].
  cbn [obind]. unfold permute. cbn. unfold linear at 1. cbn. rewrite Ein.
  destruct n as [|n']; [lia|].
  rewrite (proj2 (Nat.eqb_neq c' n')) by lia. reflexivity.
Qed.

Lemma einsum_sv_strides_length : forall s, length (einsum_sv_strides s) = length s.
Proof.
  intro s. destruct s as [|? [|? [|? [|? [|? ?]]]]]; try reflexivity;
    unfold einsum_sv_strides; apply length_contig.
Qed.

(** With two heads or more and [W * H >= 2], [prod.view(b_size, -1,
    n_heads * att_dim)] is not a valid view of the [einsum] result, so
    [AttLayer.forward] raises on every contiguous input. *)
Theorem att_forward_multi_head_fails : forall n nh l b c w h,
  init n nh = Some l -> 2 <= nh -> 0 < b -> 0 < w -> 0 < h -> 2 <= w * h ->
  att_forward einsum_sv_strides l (contiguous [b; c; w; h]) = None.
Proof.
  intros n nh l b c w h Hl Hnh Hb Hw Hh Hwh.
  destruct (init_fields n nh l Hl) as (Hn & Ea & Enh & _).
  destruct (Nat.eqb_spec c n) as [<-|Hc]; [|exact (att_forward_other_channels _ n nh l b c w h Hl Hc Hb Hw Hh)].
  rewrite (att_forward_unfold _ c nh l b w h Hl) by lia.
  unfold view at 1. cbn [sizes strides].
  rewrite (infer_size_one_hole _ _ (w * h)); [| reflexivity | nonzero_prod | cbn; ring].
  cbn [map obind einsum_sv_strides].
  rewrite view_split_heads_fails by lia. reflexivity.
Qed.

Lemma att_forward_one_head_witness :
  exists l, init 4 1 = Some l /\ (forall s, length (einsum_sv_strides s) = length s)
  /\ 0 < 2 /\ 0 < 3 /\ 0 < 5
  /\ att_forward einsum_sv_strides l (contiguous [2; 4; 3; 5]) = Some (mkLayout [2; 4; 3; 5] [60; 1; 20; 4]).
Proof.
  eexists; split; [vm_compute; reflexivity|].
  split; [exact einsum_sv_strides_length|]. split; [lia|]. split; [lia|]. split; [lia|].
  rewrite (att_forward_one_head einsum_sv_strides 4 _ 2 4 3 5); [reflexivity | vm_compute; reflexivity | exact einsum_sv_strides_length | lia | lia | lia].
Defined.

Lemma att_forward_multi_head_fails_witness :
  exists l, init 4 2 = Some l /\ 2 <= 2 /\ 0 < 3 /\ 0 < 5 /\ 0 < 6 /\ 2 <= 5 * 6
  /\ att_forward einsum_sv_strides l (contiguous [3; 4; 5; 6]) = None.
Proof.
  eexists; split; [vm_compute; reflexivity|].
  split; [lia|]. split; [lia|]. split; [lia|]. split; [lia|]. split; [lia|].
  apply (att_forward_multi_head_fails 4 2 _ 3 4 5 6); [vm_compute; reflexivity | lia | lia | lia | lia | lia].
Defined.

End AttentionShapeFacts.

Module ResidualFacts.
Import AttentionShape.

(** Reading the attention output back as an image: the residual term added at
    sequence position [w * H + h] is the input pixel [x[b, c, w, h]], and
    every sequence position is the image of exactly one pixel. *)
Theorem residual_round_trip : forall (A : Type) (H : nat) x y b c w h i,
  (h < H)%nat ->
  to_image A H (to_sequence A H x) b c w h = x b c w h /\
  to_sequence A H (to_image A H y) b i c = y b i c.
Proof.
  intros A H x y b c w h i Hh. unfold to_image, to_sequence. split.
  - rewrite Nat.div_add_l by lia. rewrite Nat.div_small by exact Hh.
    rewrite Nat.add_0_r, Nat.add_comm, Nat.Div0.mod_add, Nat.mod_small by exact Hh.
    reflexivity.
  - rewrite Nat.mul_comm, <- Nat.div_mod_eq. reflexivity.
Qed.

Lemma residual_round_trip_witness :
  (1 < 3)%nat /\
  to_image nat 3 (to_sequence nat 3 (fun b c w h => b + c + w + h)%nat) 0 1 2 1 = 4%nat /\
  to_sequence nat 3 (to_image nat 3 (fun b i c => b + i + c)%nat) 0 7 1 = 8%nat.
Proof.
  split; [lia|].
  apply (residual_round_trip nat 3 (fun b c w h => b + c + w + h)%nat
           (fun b i c => b + i + c)%nat 0 1 2 1 7). lia.
Defined.

End ResidualFacts.

Module RealFacts.
Import RealLayers.
Local Open Scope R_scope.

Lemma sigmoid_bounds : forall x, 0 < sigmoid x < 1.
Proof.
  intro x. unfold sigmoid. pose proof (exp_pos (- x)) as E. split.
  - apply Rinv_0_lt_compat. lra.
  - rewrite <- Rinv_1. apply Rinv_lt_contravar; lra.
Qed.

(** [Swish] keeps the sign of its input and shrinks it: [swish 0 = 0], and
    [swish x] lies strictly between [0] and [x] for [x <> 0]. *)
Theorem swish_between : forall x,
  x <> 0 -> (0 < x -> 0 < swish x < x) /\ (x < 0 -> x < swish x < 0).
Proof.
  intros x Hx. pose proof (sigmoid_bounds x) as [S0 S1]. unfold swish.
  split; intro Hs; split; nra.
Qed.

Lemma swish_between_witness :
  1 <> 0 /\ (0 < 1 -> 0 < swish 1 < 1) /\ (1 < 0 -> 1 < swish 1 < 0).
Proof.
  split; [lra|]. apply (swish_between 1). lra.
Defined.

Lemma swish_0 : swish 0 = 0.
Proof. unfold swish. ring. Qed.

Lemma nth_map_seq : forall (f : nat -> R) m k d, (k < m)%nat ->
  nth k (map f (seq 0 m)) d = f k.
Proof.
  intros f m k d Hk.
  rewrite nth_indep with (d' := f 0%nat) by (rewrite length_map, length_seq; exact Hk).
  rewrite map_nth, seq_nth by exact Hk. reflexivity.
Qed.

(** [PositionalEncoding.forward]: an error ([ZeroDivisionError]) exactly when
    [n_embed < 2]; otherwise one row per time stamp, each of width
    [2 * (n_embed // 2)] (so [n_embed - 1] for odd [n_embed]), and the
    entries [k] and [k + n_embed // 2] of a row are the sine and cosine of the
    same angle. *)
Theorem positional_encoding_rows : forall t n,
  (positional_encoding t n = None <-> (n < 2)%nat) /\
  forall rows, positional_encoding t n = Some rows ->
    length rows = length t /\
    Forall (fun r => length r = (2 * (n / 2))%nat) rows /\
    forall s, In s t -> forall k, (k < n / 2)%nat ->
      (nth k (pe_row n s) 0) ^ 2 + (nth (k + n / 2) (pe_row n s) 0) ^ 2 = 1.
Proof.
  intros t n. unfold positional_encoding. split.
  - destruct (Nat.eqb_spec (n / 2) 0) as [E|E].
    + split; [intros _|reflexivity]. apply Nat.div_small_iff in E; lia.
    + split; [discriminate|]. intro Hn. exfalso. apply E, Nat.div_small. exact Hn.
  - intros rows Hr. destruct (Nat.eqb (n / 2) 0); [discriminate|].
    injection Hr as <-. split; [apply length_map|]. split.
    + apply Forall_forall. intros r Hr. apply in_map_iff in Hr as [s [<- _]].
      unfold pe_row. rewrite length_app, !length_map, length_seq. lia.
    + intros s _ k Hk. unfold pe_row.
      rewrite app_nth1 by (rewrite length_map, length_seq; exact Hk).
      rewrite app_nth2 by (rewrite length_map, length_seq; lia).
      rewrite length_map, length_seq, Nat.add_sub.
      rewrite !nth_map_seq by exact Hk.
      rewrite <- (sin2_cos2 (s * pe_freq n k)). unfold Rsqr. ring.
Qed.

Lemma positional_encoding_rows_witness :
  (1 < 4 / 2)%nat /\
  exists rows, positional_encoding [0; 1] 4 = Some rows /\
    (nth 1 (pe_row 4 1) 0) ^ 2 + (nth (1 + 4 / 2) (pe_row 4 1) 0) ^ 2 = 1.
Proof.
  split; [simpl; lia|]. eexists. split; [reflexivity|].
  destruct (positional_encoding_rows [0; 1] 4) as [_ P].
  apply (P _ eq_refl); [simpl; tauto | simpl; lia].
Defined.

Lemma ln_10000_pos : 0 < ln 10000.
Proof. rewrite <- ln_1. apply ln_increasing; lra. Qed.

(** The frequencies of [PositionalEncoding]: [exp(-h * k)] is
    [10000 ^ (-k / (n_embed // 2))], starting at [1] for [k = 0] and strictly
    decreasing in [k]. *)
Theorem pe_freq_geometric : forall n k,
  (n / 2 <> 0)%nat ->
  pe_freq n k = Rpower 10000 (- (INR k / INR (n / 2))) /\
  pe_freq n 0 = 1 /\
  pe_freq n (S k) < pe_freq n k.
Proof.
  intros n k Hn.
  assert (Hm : 0 < INR (n / 2)) by (apply lt_0_INR; lia).
  pose proof ln_10000_pos as L.
  assert (Hh : 0 < pe_h n) by (unfold pe_h; apply Rdiv_lt_0_compat; assumption).
  unfold pe_freq. split; [|split].
  - unfold Rpower, pe_h. f_equal. field. lra.
  - simpl. rewrite Rmult_0_l. apply exp_0.
  - apply exp_increasing. rewrite S_INR. nra.
Qed.

Lemma pe_freq_geometric_witness :
  (4 / 2 <> 0)%nat /\
  pe_freq 4 1 = Rpower 10000 (- (INR 1 / INR (4 / 2))) /\ pe_freq 4 0 = 1 /\
  pe_freq 4 2 < pe_freq 4 1.
Proof.
  split; [simpl; lia|]. apply (pe_freq_geometric 4 1). simpl. lia.
Defined.

Lemma sumR_div : forall n f c, sumR n (fun i => f i / c) = sumR n f / c.
Proof.
  induction n as [|n IH]; intros f c; simpl.
  - unfold Rdiv. ring.
  - rewrite IH. unfold Rdiv. ring.
Qed.

Lemma sumR_pos : forall n f, (0 < n)%nat -> (forall i, 0 < f i) -> 0 < sumR n f.
Proof.
  induction n as [|n IH]; intros f Hn Hf; [lia|]. simpl.
  destruct n as [|n].
  - simpl. specialize (Hf 0%nat). lra.
  - specialize (IH f ltac:(lia) Hf). specialize (Hf (S n)). lra.
Qed.

(** [prod.softmax(dim=1)] normalises over the query index [i]: every weight
    lies in [(0, 1]] and, for each key position [j], the weights over the [n]
    query positions sum to [1]. *)
Theorem softmax_dim1_columns : forall n p j,
  (0 < n)%nat ->
  sumR n (fun i => softmax_dim1 n p i j) = 1 /\
  forall i, (i < n)%nat -> 0 < softmax_dim1 n p i j <= 1.
Proof.
  intros n p j Hn. unfold softmax_dim1.
  assert (S0 : 0 < sumR n (fun i' => exp (p i' j)))
    by (apply sumR_pos; [exact Hn | intro; apply exp_pos]).
  split.
  - rewrite sumR_div. field. lra.
  - intros i Hi. split.
    + apply Rdiv_lt_0_compat; [apply exp_pos | exact S0].
    + apply Rmult_le_reg_r with (sumR n (fun i' => exp (p i' j))); [exact S0|].
      unfold Rdiv. rewrite Rmult_assoc, Rinv_l by lra. rewrite Rmult_1_r, Rmult_1_l.
      clear S0 Hn. induction n as [|n IH]; [lia|]. simpl.
      destruct (Nat.eq_dec i n) as [->|Hne].
      * assert (0 <= sumR n (fun i' => exp (p i' j))).
        { clear IH Hi. induction n as [|n IHn]; simpl; [lra|].
          pose proof (exp_pos (p n j)). lra. }
        lra.
      * pose proof (exp_pos (p n j)). specialize (IH ltac:(lia)). lra.
Qed.

Lemma softmax_dim1_columns_witness :
  (0 < 2)%nat /\
  sumR 2 (fun i => softmax_dim1 2 (fun i j => INR (i + j)) i 0%nat) = 1 /\
  forall i, (i < 2)%nat -> 0 < softmax_dim1 2 (fun i j => INR (i + j)) i 0%nat <= 1.
Proof.
  split; [lia|]. apply (softmax_dim1_columns 2 (fun i j => INR (i + j)) 0). lia.
Defined.

End RealFacts.

Module EmbFacts.
Import TorchShape EmbShape.

Lemma half_double : forall m, (2 * (m / 2) =? m) = Nat.even m.
Proof.
  intro m. destruct (Nat.even m) eqn:E.
  - apply Nat.even_spec in E as [q ->]. rewrite (Nat.mul_comm 2 q), Nat.div_mul by lia.
    apply Nat.eqb_eq. lia.
  - assert (O : Nat.odd m = true) by (rewrite <- Nat.negb_even, E; reflexivity).
    apply Nat.odd_spec in O as [q ->].
    replace (2 * q + 1)%nat with (1 + q * 2)%nat by lia.
    rewrite Nat.div_add by lia. simpl. apply Nat.eqb_neq. lia.
Qed.

(** [EmbLayer(n_embed, scale_fact).forward] on a batch of [b] time stamps
    returns [[b; n_embed]] exactly when [scale_fact <> 0] and
    [n_embed // scale_fact] is even and at least [2]; otherwise it fails: for
    an odd [n_embed // scale_fact] the positional encoding has width
    [n_embed // scale_fact - 1] and [lin1] rejects it. *)
Theorem emb_forward_shape : forall n_embed scale_fact b,
  emb_forward n_embed scale_fact [b] =
  if negb (Nat.eqb scale_fact 0) && Nat.leb 2 (n_embed / scale_fact)
     && Nat.even (n_embed / scale_fact)
  then Some [b; n_embed] else None.
Proof.
  intros n sf b. unfold emb_forward.
  destruct (Nat.eqb_spec sf 0) as [->|Hsf]; [reflexivity|]. cbn [negb andb].
  set (m := (n / sf)%nat). unfold pe_shape.
  destruct (Nat.eqb_spec (m / 2) 0) as [E|E].
  - apply Nat.div_small_iff in E; [|lia].
    destruct (Nat.leb_spec 2 m); [lia|]. reflexivity.
  - destruct (Nat.leb_spec 2 m) as [_|L]; [|exfalso; apply E, Nat.div_small; lia].
    cbn [obind]. unfold linear. cbn [rev app]. rewrite half_double.
    destruct (Nat.even m); [|reflexivity].
    cbn [obind rev app]. rewrite Nat.eqb_refl. reflexivity.
Qed.

End EmbFacts.

Module ValidationFacts.
Import Validation.

Lemma n_batches_div : forall n_valid b_size, b_size <> 0%nat ->
  n_batches n_valid b_size = Some (n_valid / b_size)%nat.
Proof.
  intros nv b Hb. unfold n_batches.
  destruct (Nat.eqb_spec b 0) as [|_]; [contradiction|]. f_equal.
  unfold Qfloor.
  replace (Z.pos (Pos.of_nat b)) with (Z.of_nat b)
    by (rewrite <- (Nat2Pos.id b Hb) at 1; apply Znat.positive_nat_Z).
  rewrite <- Znat.Nat2Z.inj_div. apply Znat.Nat2Z.id.
Qed.

Lemma save_batches_seq : forall decoded nb k i,
  exists m, save_batches decoded k nb i = seq i m.
Proof.
  induction nb as [|nb IH]; intros k i; simpl.
  - exists 0%nat. reflexivity.
  - destruct (IH (S k) (i + decoded k)%nat) as [m ->].
    exists (decoded k + m)%nat. rewrite seq_app. reflexivity.
Qed.

(** Whatever number of objects the decoder returns per batch, the validation
    loop names its files [0.png, 1.png, ...] consecutively, so no saved image
    overwrites another. *)
Theorem saved_files_consecutive : forall decoded n_valid b_size files,
  saved_files decoded n_valid b_size = Some files ->
  files = seq 0 (length files) /\ NoDup files.
Proof.
  intros decoded nv b files H. unfold saved_files in H.
  destruct (n_batches nv b) as [nb|]; [|discriminate]. cbn [obind] in H.
  injection H as <-. destruct (save_batches_seq decoded nb 0 0) as [m ->].
  rewrite length_seq. split; [reflexivity | apply seq_NoDup].
Qed.

Lemma saved_files_consecutive_witness :
  exists files, saved_files (fun k => (k + 1)%nat) 10 3 = Some files /\
    files = seq 0 (length files) /\ NoDup files.
Proof.
  eexists. split; [vm_compute; reflexivity|].
  apply (saved_files_consecutive (fun k => (k + 1)%nat) 10 3). vm_compute. reflexivity.
Defined.

Lemma save_batches_const : forall d nb k i,
  save_batches (fun _ => d) k nb i = seq i (nb * d).
Proof.
  induction nb as [|nb IH]; intros k i; simpl; [reflexivity|].
  rewrite IH, seq_app. reflexivity.
Qed.

(** With a decoder that returns [b_size] objects per batch, the loop saves
    [(n_valid // b_size) * b_size] images, named [0 .. N - 1]: all of
    [n_valid] when [b_size] divides it, otherwise the last
    [n_valid mod b_size] are never produced; [b_size = 0] is an error. *)
Theorem saved_files_full_batches : forall n_valid b_size,
  (saved_files (fun _ => b_size) n_valid b_size = None <-> b_size = 0%nat) /\
  (b_size <> 0%nat ->
   saved_files (fun _ => b_size) n_valid b_size
   = Some (seq 0 (n_valid - n_valid mod b_size)) /\
   (n_valid - n_valid mod b_size <= n_valid < n_valid - n_valid mod b_size + b_size)%nat).
Proof.
  intros nv b. split.
  - unfold saved_files. split.
    + intro H. destruct (Nat.eq_dec b 0) as [|Hb]; [assumption|].
      rewrite n_batches_div in H by exact Hb. discriminate.
    + intros ->. reflexivity.
  - intro Hb. unfold saved_files. rewrite n_batches_div by exact Hb. cbn [obind].
    rewrite save_batches_const.
    pose proof (Nat.div_mod_eq nv b) as D. pose proof (Nat.mod_upper_bound nv b Hb) as U.
    split; [f_equal; f_equal; lia | lia].
Qed.

Lemma saved_files_full_batches_witness :
  saved_files (fun _ => 3%nat) 10 3 = Some (seq 0 (10 - 10 mod 3)) /\
  (10 - 10 mod 3 <= 10 < 10 - 10 mod 3 + 3)%nat.
Proof.
  destruct (saved_files_full_batches 10 3) as [_ P]. apply P. lia.
Defined.

End ValidationFacts.

Module SamplerFacts.

Lemma noise_indices_app : forall l1 l2,
  noise_indices (l1 ++ l2) = noise_indices l1 ++ noise_indices l2.
Proof.
  induction l1 as [|e l1 IH]; intro l2; [reflexivity|].
  destruct e; simpl; rewrite IH; reflexivity.
Qed.

Section Draws.
Variable score_nn : Tensor -> Tensor -> Tensor.
Variable noise : nat -> nat -> Q.
Variable qsqrt : Q -> Q.

Lemma inner_step_draws : forall used step s s',
  inner_step score_nn noise qsqrt used step s = Some s' ->
  st_draws s' = S (st_draws s) /\
  noise_indices (st_log s') = noise_indices (st_log s) ++ [st_draws s].
Proof.
  intros used step s s' H. unfold inner_step in H.
  destruct (langevin_update _ _ _ _) as [x'|]; [|discriminate]. cbn [obind] in H.
  injection H as <-. simpl. split; [reflexivity|].
  rewrite noise_indices_app. reflexivity.
Qed.

Lemma inner_loop_draws : forall T used step s s',
  inner_loop score_nn noise qsqrt T used step s = Some s' ->
  st_draws s' = (st_draws s + T)%nat /\
  noise_indices (st_log s') = noise_indices (st_log s) ++ seq (st_draws s) T.
Proof.
  induction T as [|T IH]; intros used step s s' H; simpl in H.
  - injection H as <-. rewrite Nat.add_0_r, app_nil_r. split; reflexivity.
  - destruct (inner_step score_nn noise qsqrt used step s) as [s1|] eqn:E;
      [|discriminate]. cbn [obind] in H.
    apply inner_step_draws in E as [D1 N1]. apply IH in H as [D2 N2].
    rewrite D2, N2, N1, D1, <- app_assoc. simpl. split; [lia | reflexivity].
Qed.

Lemma outer_loop_draws : forall sigmas eps T rest label s s',
  outer_loop score_nn noise qsqrt sigmas eps T label rest s = Some s' ->
  st_draws s' = (st_draws s + length rest * T)%nat /\
  noise_indices (st_log s') = noise_indices (st_log s) ++ seq (st_draws s) (length rest * T).
Proof.
  intros sigmas eps T. induction rest as [|sigma rest IH]; intros label s s' H; simpl in H.
  - injection H as <-. rewrite Nat.add_0_r, app_nil_r. split; reflexivity.
  - destruct (inner_loop _ _ _ _ _ _ _) as [s1|] eqn:E; [|discriminate]. cbn [obind] in H.
    apply inner_loop_draws in E as [D1 N1]. apply IH in H as [D2 N2].
    cbn [st_draws st_log] in D1, N1.
    rewrite noise_indices_app in N1. simpl in N1. rewrite app_nil_r in N1.
    rewrite D2, N2, N1, D1, <- app_assoc, <- seq_app. simpl. split; [lia | reflexivity].
Qed.

End Draws.

(** Every step of the sampler draws fresh noise: a run over [L] noise levels
    with [T] steps each takes exactly [L * T] draws of [randn_like], with the
    draw indices [0, 1, ..., L * T - 1] in order, so no noise tensor is
    reused. *)
Theorem sampler_fresh_noise : forall score_nn noise qsqrt x sigmas eps T s,
  run score_nn noise qsqrt x sigmas eps T = Some s ->
  st_draws s = (length sigmas * T)%nat /\
  noise_indices (st_log s) = seq 0 (length sigmas * T).
Proof.
  intros score_nn noise qsqrt x sigmas eps T s H. unfold run in H.
  apply outer_loop_draws in H as [D N]. simpl in D, N. split; assumption.
Qed.

Lemma sampler_fresh_noise_witness :
  exists s,
    run (fun a _ => scale_l 2 a) (fun k i => inject_Z (Z.of_nat (k + i)))
      (fun q => q) (mkTensor [1%nat; 2%nat] [3; -4]) [3; 2; 1] (1 # 10) 2 = Some s /\
    st_draws s = (length [3; 2; 1] * 2)%nat /\
    noise_indices (st_log s) = seq 0 (length [3; 2; 1] * 2).
Proof.
  vm_compute. eexists. split; [reflexivity|].
  apply (sampler_fresh_noise (fun a _ => scale_l 2 a) (fun k i => inject_Z (Z.of_nat (k + i)))
    (fun q => q) (mkTensor [1%nat; 2%nat] [3; -4]) [3; 2; 1] (1 # 10) 2).
  vm_compute. reflexivity.
Defined.

End SamplerFacts.
